(** * The account store of gemini-business-2api ([database.py])

    [DatabaseManager] owns an optional asyncpg connection pool and issues a
    handful of SQL statements against the table [gemini_accounts].  The
    development has three layers:

    - the relational store: rows of [gemini_accounts], the [SERIAL] sequence
      of the primary key and an interpreter for the statements the module
      sends, with the constraints the schema of [_init_schema] declares
      ([NOT NULL], [VARCHAR(255)], [BIGINT], primary key);
    - the driver: how Python values are bound to statement parameters and
      how a pool hands out connections;
    - the methods of [DatabaseManager], written in a small state and
      exception monad over the manager object and its environment. *)

From Stdlib Require Import ZArith String Ascii List Bool Lia.
From stdpp Require Import base option list gmap strings sorting.

Local Open Scope Z_scope.

(** ** Python values and exceptions *)

(** The values a caller can put into the [data] dict of [update_account] or
    pass as an argument.  Timestamps are microseconds since the epoch. *)
Inductive pyval :=
| PNone
| PBool (b : bool)
| PInt (n : Z)
| PStr (s : string)
| PDatetime (t : Z).

Inductive exn :=
| AttributeError
| InterfaceError (msg : string)
| ConnectionFailure (dsn : string)
| DataError
| TooFewArguments
| UndefinedTableError
| UndefinedColumnError (column : string)
| DatatypeMismatchError (column : string)
| CharacterNotInRepertoireError
| StringDataRightTruncationError
| NumericValueOutOfRangeError
| NotNullViolationError (column : string)
| UniqueViolationError
| SequenceLimitError.

Inductive outcome (A : Type) :=
| Return (a : A)
| Raise (e : exn).
Arguments Return {A} a.
Arguments Raise {A} e.

(** Sequencing of pure fallible steps. *)
Definition andThen {A B} (o : outcome A) (k : A -> outcome B) : outcome B :=
  match o with
  | Return a => k a
  | Raise e => Raise e
  end.

(** ** The table [gemini_accounts] *)

(** One row.  Columns declared [NOT NULL] (and the primary key) hold a value;
    every other column may hold SQL NULL, written [None]. *)
Module Row.
Record t := mk {
  id : Z;
  name : option string;
  secure_c_ses : string;
  host_c_oses : option string;
  csesidx : string;
  config_id : string;
  is_active : option bool;
  request_count : option Z;
  last_used_at : option Z;
  created_at : option Z
}.
End Row.

Inductive column :=
| Cid | Cname | Csecure_c_ses | Chost_c_oses | Ccsesidx | Cconfig_id
| Cis_active | Crequest_count | Clast_used_at | Ccreated_at.

Definition column_of (key : string) : option column :=
  if String.eqb key "id" then Some Cid
  else if String.eqb key "name" then Some Cname
  else if String.eqb key "secure_c_ses" then Some Csecure_c_ses
  else if String.eqb key "host_c_oses" then Some Chost_c_oses
  else if String.eqb key "csesidx" then Some Ccsesidx
  else if String.eqb key "config_id" then Some Cconfig_id
  else if String.eqb key "is_active" then Some Cis_active
  else if String.eqb key "request_count" then Some Crequest_count
  else if String.eqb key "last_used_at" then Some Clast_used_at
  else if String.eqb key "created_at" then Some Ccreated_at
  else None.

#[global] Instance column_eq_dec : EqDecision column.
Proof. solve_decision. Defined.

Definition key_of (c : column) : string :=
  match c with
  | Cid => "id"
  | Cname => "name"
  | Csecure_c_ses => "secure_c_ses"
  | Chost_c_oses => "host_c_oses"
  | Ccsesidx => "csesidx"
  | Cconfig_id => "config_id"
  | Cis_active => "is_active"
  | Crequest_count => "request_count"
  | Clast_used_at => "last_used_at"
  | Ccreated_at => "created_at"
  end.

Inductive sqltype := TInt4 | TInt8 | TText | TVarchar (n : nat) | TBool | TTimestamp.

(** The column types of [CREATE TABLE gemini_accounts]. *)
Definition column_type (c : column) : sqltype :=
  match c with
  | Cid => TInt4
  | Cname => TVarchar 255
  | Csecure_c_ses | Chost_c_oses | Ccsesidx | Cconfig_id => TText
  | Cis_active => TBool
  | Crequest_count => TInt8
  | Clast_used_at | Ccreated_at => TTimestamp
  end.

Inductive sqlval :=
| VNull
| VInt (n : Z)
| VText (s : string)
| VBool (b : bool)
| VTime (t : Z).

Definition int4_min : Z := - 2147483648.
Definition int4_max : Z := 2147483647.
Definition int8_min : Z := - 9223372036854775808.
Definition int8_max : Z := 9223372036854775807.

Definition in_int4 (n : Z) : bool := (int4_min <=? n) && (n <=? int4_max).
Definition in_int8 (n : Z) : bool := (int8_min <=? n) && (n <=? int8_max).

(** ** The driver: binding Python values to parameters *)

(** asyncpg encodes an argument by the type the server inferred for its
    parameter.  [None] is NULL for every type; otherwise the Python type has
    to fit ([str] for text, [bool] for boolean, an [int] in range for the
    integer types, a [datetime] for a timestamp). *)
Definition encode (ty : sqltype) (v : pyval) : option sqlval :=
  match v, ty with
  | PNone, _ => Some VNull
  | PStr s, (TText | TVarchar _) => Some (VText s)
  | PBool b, TBool => Some (VBool b)
  | PBool b, TInt4 | PBool b, TInt8 => Some (VInt (Z.b2z b))
  | PInt n, TInt4 => if in_int4 n then Some (VInt n) else None
  | PInt n, TInt8 => if in_int8 n then Some (VInt n) else None
  | PDatetime t, TTimestamp => Some (VTime t)
  | _, _ => None
  end.

(** Argument [$n] of a call ([n] counts from 1), encoded for type [ty]. *)
Definition bind_param (args : list pyval) (n : nat) (ty : sqltype) : outcome sqlval :=
  match n with
  | O => Raise TooFewArguments
  | S i =>
      match args !! i with
      | None => Raise TooFewArguments
      | Some v =>
          match encode ty v with
          | Some x => Return x
          | None => Raise DataError
          end
      end
  end.

(** ** The server: values entering a column *)

Definition NUL : ascii := Ascii.zero.

(** A text value is refused when it contains the NUL character. *)
Definition valid_text (s : string) : bool :=
  forallb (fun c => negb (Ascii.eqb c NUL)) (list_ascii_of_string s).

Definition all_spaces (s : string) : bool :=
  forallb (fun c => Ascii.eqb c " "%char) (list_ascii_of_string s).

(** A [str] is held as its UTF-8 encoding, as string literals are, and the
    database stores text in UTF-8.  One character is a leading byte with the
    continuation bytes (10xxxxxx) that follow it, so the characters of a
    text are counted by its leading bytes.  Byte sequences that encode no
    [str] are not told apart from those that do. *)
Definition is_continuation (c : ascii) : bool :=
  let n := N_of_ascii c in ((128 <=? n) && (n <? 192))%N.

Fixpoint char_length (s : string) : nat :=
  match s with
  | EmptyString => O
  | String c s' =>
      if is_continuation c then char_length s' else S (char_length s')
  end.

(** The first [n] characters of [s]. *)
Fixpoint take_chars (n : nat) (s : string) : string :=
  match s with
  | EmptyString => EmptyString
  | String c s' =>
      if is_continuation c then String c (take_chars n s')
      else match n with
           | O => EmptyString
           | S n' => String c (take_chars n' s')
           end
  end.

(** What follows the first [n] characters of [s]. *)
Fixpoint drop_chars (n : nat) (s : string) : string :=
  match s with
  | EmptyString => EmptyString
  | String c s' =>
      if is_continuation c then drop_chars n s'
      else match n with
           | O => s
           | S n' => drop_chars n' s'
           end
  end.

(** Storing a string into a [VARCHAR(n)] column: a value of more than [n]
    characters is an error unless the excess consists of spaces, which are
    cut off. *)
Definition coerce_varchar (n : nat) (s : string) : outcome string :=
  if (char_length s <=? n)%nat then Return s
  else if all_spaces (drop_chars n s)
       then Return (take_chars n s)
       else Raise StringDataRightTruncationError.

(** The checks that depend on the value alone (made when the parameter is
    received and the statement is planned, whether or not a row matches). *)
Definition coerce (ty : sqltype) (v : sqlval) : outcome sqlval :=
  match v with
  | VText s =>
      if valid_text s then
        match ty with
        | TVarchar n => andThen (coerce_varchar n s) (fun s' => Return (VText s'))
        | _ => Return (VText s)
        end
      else Raise CharacterNotInRepertoireError
  | _ => Return v
  end.

Definition not_null (key : string) (o : option string) : outcome string :=
  match o with
  | Some s => Return s
  | None => Raise (NotNullViolationError key)
  end.

Definition as_text (v : sqlval) : option string :=
  match v with VText s => Some s | _ => None end.
Definition as_bool (v : sqlval) : option bool :=
  match v with VBool b => Some b | _ => None end.
Definition as_int (v : sqlval) : option Z :=
  match v with VInt n => Some n | _ => None end.
Definition as_time (v : sqlval) : option Z :=
  match v with VTime t => Some t | _ => None end.

(** [assign c v r]: row [r] with column [c] set to [v] (a value of the
    column's type), or the constraint the new row violates. *)
Definition assign (c : column) (v : sqlval) (r : Row.t) : outcome Row.t :=
  let 'Row.mk i n s h x g a q l t := r in
  match c with
  | Cid =>
      match as_int v with
      | Some i' => Return (Row.mk i' n s h x g a q l t)
      | None => Raise (NotNullViolationError "id")
      end
  | Cname => Return (Row.mk i (as_text v) s h x g a q l t)
  | Csecure_c_ses =>
      andThen (not_null "secure_c_ses" (as_text v))
              (fun s' => Return (Row.mk i n s' h x g a q l t))
  | Chost_c_oses => Return (Row.mk i n s (as_text v) x g a q l t)
  | Ccsesidx =>
      andThen (not_null "csesidx" (as_text v))
              (fun x' => Return (Row.mk i n s h x' g a q l t))
  | Cconfig_id =>
      andThen (not_null "config_id" (as_text v))
              (fun g' => Return (Row.mk i n s h x g' a q l t))
  | Cis_active => Return (Row.mk i n s h x g (as_bool v) q l t)
  | Crequest_count => Return (Row.mk i n s h x g a (as_int v) l t)
  | Clast_used_at => Return (Row.mk i n s h x g a q (as_time v) t)
  | Ccreated_at => Return (Row.mk i n s h x g a q l (as_time v))
  end.

(** ** The statements the module sends *)

(** Right-hand sides of a [SET] clause. *)
Inductive expr :=
| Param (n : nat)         (* $n *)
| NOW                     (* NOW() *)
| RequestCountPlusOne.    (* request_count + 1 *)

Inductive sql :=
| CreateSchema
    (* CREATE TABLE IF NOT EXISTS gemini_accounts (...);
       ALTER TABLE ... ADD COLUMN IF NOT EXISTS request_count ...;
       CREATE INDEX IF NOT EXISTS idx_accounts_active ... *)
| SelectActive
    (* SELECT * FROM gemini_accounts WHERE is_active = TRUE
       ORDER BY last_used_at ASC NULLS FIRST *)
| SelectAll
    (* SELECT * FROM gemini_accounts ORDER BY id ASC *)
| Update (set_clauses : list (string * expr)) (where_id : nat)
    (* UPDATE gemini_accounts SET c1 = e1, ..., ck = ek WHERE id = $where_id *)
| InsertAccount
    (* INSERT INTO gemini_accounts
         (name, secure_c_ses, host_c_oses, csesidx, config_id)
       VALUES ($1, $2, $3, $4, $5) *)
| DeleteById.
    (* DELETE FROM gemini_accounts WHERE id = $1 *)

(** The relation with the [SERIAL] sequence that is created along with it:
    [id_seq] is the value the next [nextval] returns.  [lacks] lists the
    columns of the schema that the relation does not have: none for a table
    this module created, some for a table an earlier version left behind
    (the script of [_init_schema] adds [request_count] to such a table).  The
    columns the relation has are those of the schema, with its types, and a
    row of an older table carries no information in the fields of the
    columns the table lacks. *)
Record Table := mkTable {
  rows : list Row.t;
  id_seq : Z;
  lacks : list column
}.

(** The database: the relation (absent until the schema is created) and the
    calls received so far, oldest first. *)
Record Database := mkDatabase {
  relation : option Table;
  submitted : list (sql * list pyval)
}.

Definition fresh_database : Database := mkDatabase None [].

Fixpoint mapM {A B} (f : A -> outcome B) (l : list A) : outcome (list B) :=
  match l with
  | [] => Return []
  | a :: l' =>
      andThen (f a) (fun b => andThen (mapM f l') (fun bs => Return (b :: bs)))
  end.

(** *** UPDATE *)

(** Analysis: the column exists and the expression has its type. *)
Definition expr_fits (e : expr) (ty : sqltype) : bool :=
  match e, ty with
  | Param _, _ => true
  | NOW, TTimestamp => true
  | RequestCountPlusOne, TInt8 => true
  | _, _ => false
  end.

Definition resolve (cl : string * expr) : outcome (column * expr) :=
  match column_of cl.1 with
  | None => Raise (UndefinedColumnError cl.1)
  | Some c =>
      if expr_fits cl.2 (column_type c) then Return (c, cl.2)
      else Raise (DatatypeMismatchError cl.1)
  end.

(** A right-hand side once its parameter is bound. *)
Inductive operand :=
| Bound (v : sqlval)
| CurrentTime
| CountPlusOne.

Definition bind_clause (args : list pyval) (ce : column * expr)
  : outcome (column * operand) :=
  match ce.2 with
  | Param n =>
      andThen (bind_param args n (column_type ce.1))
              (fun v => Return (ce.1, Bound v))
  | NOW => Return (ce.1, CurrentTime)
  | RequestCountPlusOne => Return (ce.1, CountPlusOne)
  end.

Definition plan_clause (co : column * operand) : outcome (column * operand) :=
  match co.2 with
  | Bound v =>
      andThen (coerce (column_type co.1) v) (fun v' => Return (co.1, Bound v'))
  | _ => Return co
  end.

(** Every right-hand side reads the row as it was before the statement. *)
Definition eval (now : Z) (old : Row.t) (o : operand) : outcome sqlval :=
  match o with
  | Bound v => Return v
  | CurrentTime => Return (VTime now)
  | CountPlusOne =>
      match Row.request_count old with
      | None => Return VNull
      | Some q =>
          if q + 1 <=? int8_max then Return (VInt (q + 1))
          else Raise NumericValueOutOfRangeError
      end
  end.

Fixpoint update_row (now : Z) (old : Row.t) (cls : list (column * operand))
  (r : Row.t) : outcome Row.t :=
  match cls with
  | [] => Return r
  | (c, o) :: rest =>
      andThen (eval now old o)
              (fun v => andThen (assign c v r) (update_row now old rest))
  end.

(** The rows selected by [WHERE id = w]; a NULL [w] selects none. *)
Definition id_matches (w : sqlval) (r : Row.t) : bool :=
  match w with
  | VInt i => Row.id r =? i
  | _ => false
  end.

Definition update_rows (now : Z) (cls : list (column * operand)) (w : sqlval)
  (rows : list Row.t) : outcome (list Row.t) :=
  mapM (fun r => if id_matches w r then update_row now r cls r else Return r)
       rows.

Fixpoint unique_ids (rows : list Row.t) : bool :=
  match rows with
  | [] => true
  | r :: rs => negb (existsb (fun r' => Row.id r' =? Row.id r) rs) && unique_ids rs
  end.

Definition check_primary_key (rows : list Row.t) : outcome (list Row.t) :=
  if unique_ids rows then Return rows else Raise UniqueViolationError.

Definition run_update (set_clauses : list (string * expr)) (where_id : nat)
  (args : list pyval) (now : Z) (rows : list Row.t) : outcome (list Row.t) :=
  andThen (mapM resolve set_clauses) (fun resolved =>
  andThen (mapM (bind_clause args) resolved) (fun bound =>
  andThen (bind_param args where_id TInt4) (fun w =>
  andThen (mapM plan_clause bound) (fun planned =>
  andThen (update_rows now planned w rows) check_primary_key)))).

(** *** INSERT *)

(** The row that [InsertAccount] adds: the five supplied columns, the
    declared defaults for [is_active], [request_count] and [created_at],
    NULL for [last_used_at]. *)
Definition new_row (i : Z) (now : Z) (vs : list sqlval) : outcome Row.t :=
  match vs with
  | [vn; vs'; vh; vx; vg] =>
      andThen (not_null "secure_c_ses" (as_text vs')) (fun s =>
      andThen (not_null "csesidx" (as_text vx)) (fun x =>
      andThen (not_null "config_id" (as_text vg)) (fun g =>
      Return (Row.mk i (as_text vn) s (as_text vh) x g
                     (Some true) (Some 0) None (Some now)))))
  | _ => Raise TooFewArguments
  end.

Definition insert_types : list sqltype := [TVarchar 255; TText; TText; TText; TText].

Fixpoint bind_all (args : list pyval) (n : nat) (tys : list sqltype)
  : outcome (list sqlval) :=
  match tys with
  | [] => Return []
  | ty :: tys' =>
      andThen (bind_param args n ty) (fun v =>
      andThen (bind_all args (S n) tys') (fun vs => Return (v :: vs)))
  end.

Fixpoint coerce_all (tys : list sqltype) (vs : list sqlval) : outcome (list sqlval) :=
  match tys, vs with
  | ty :: tys', v :: vs' =>
      andThen (coerce ty v) (fun v' =>
      andThen (coerce_all tys' vs') (fun r => Return (v' :: r)))
  | _, _ => Return []
  end.

(** The values are bound and coerced first; [nextval] is then taken from the
    sequence, and is not given back when the row is refused. *)
Definition run_insert (args : list pyval) (now : Z) (rows : list Row.t) (seq : Z)
  : outcome (list Row.t) * Z :=
  match andThen (bind_all args 1 insert_types) (coerce_all insert_types) with
  | Raise e => (Raise e, seq)
  | Return vs =>
      if seq <=? int4_max then
        (andThen (new_row seq now vs) (fun r => check_primary_key (rows ++ [r])),
         seq + 1)
      else (Raise SequenceLimitError, seq)
  end.

(** *** DELETE and SELECT *)

Definition run_delete (args : list pyval) (rows : list Row.t) : outcome (list Row.t) :=
  andThen (bind_param args 1 TInt4) (fun w =>
  Return (List.filter (fun r => negb (id_matches w r)) rows)).

(** [ORDER BY last_used_at ASC NULLS FIRST]. *)
Definition nulls_first_le (a b : option Z) : Prop :=
  match a, b with
  | None, _ => True
  | Some _, None => False
  | Some x, Some y => x <= y
  end.

Definition by_last_used_at (r1 r2 : Row.t) : Prop :=
  nulls_first_le (Row.last_used_at r1) (Row.last_used_at r2).

Definition by_id (r1 r2 : Row.t) : Prop := Row.id r1 <= Row.id r2.

#[global] Instance nulls_first_le_dec a b : Decision (nulls_first_le a b).
Proof. destruct a, b; simpl; apply _. Defined.

#[global] Instance by_last_used_at_dec : RelDecision by_last_used_at.
Proof. intros r1 r2. unfold by_last_used_at. apply _. Defined.

#[global] Instance by_id_dec : RelDecision by_id.
Proof. intros r1 r2. unfold by_id. apply _. Defined.

(** [WHERE is_active = TRUE]: a NULL flag does not satisfy the condition. *)
Definition active (r : Row.t) : bool :=
  match Row.is_active r with
  | Some true => true
  | _ => false
  end.

(** Rows with equal sort keys come out in table order here; the server
    promises no order among them, and no result below depends on it. *)
Definition select_active (rows : list Row.t) : list Row.t :=
  merge_sort by_last_used_at (List.filter active rows).

Definition select_all (rows : list Row.t) : list Row.t :=
  merge_sort by_id rows.

(** *** One call on a connection *)

Definition record_call (q : sql) (args : list pyval) (db : Database) : Database :=
  mkDatabase (relation db) (submitted db ++ [(q, args)]).

Definition with_table (t : Table) (db : Database) : Database :=
  mkDatabase (Some t) (submitted db).

(** The column a [SET] clause reads on its right-hand side, and the column
    it assigns. *)
Definition clause_reads (cl : string * expr) : list column :=
  match cl.2 with
  | RequestCountPlusOne => [Crequest_count]
  | _ => []
  end.

Definition clause_assigns (cl : string * expr) : list column :=
  match column_of cl.1 with
  | Some c => [c]
  | None => []
  end.

(** The columns a statement names, in the order the server resolves them:
    for an [UPDATE] the [WHERE] clause, then the right-hand sides, then the
    assigned columns. *)
Definition mentioned (q : sql) : list column :=
  match q with
  | CreateSchema => []
  | SelectActive => [Cis_active; Clast_used_at]
  | SelectAll => [Cid]
  | Update set_clauses _ =>
      [Cid] ++ flat_map clause_reads set_clauses
            ++ flat_map clause_assigns set_clauses
  | InsertAccount => [Cname; Csecure_c_ses; Chost_c_oses; Ccsesidx; Cconfig_id]
  | DeleteById => [Cid]
  end.

(** A statement that names a column the relation lacks is refused. *)
Fixpoint check_columns (lacking : list column) (cs : list column) : outcome unit :=
  match cs with
  | [] => Return tt
  | c :: cs' =>
      if existsb (fun c' => bool_decide (c' = c)) lacking
      then Raise (UndefinedColumnError (key_of c))
      else check_columns lacking cs'
  end.

(** [ALTER TABLE gemini_accounts ADD COLUMN IF NOT EXISTS request_count
    BIGINT DEFAULT 0]: a table without the column gets it, with 0 in every
    row. *)
Definition add_request_count (t : Table) : Table :=
  if existsb (fun c => bool_decide (c = Crequest_count)) (lacks t)
  then mkTable
         (map (fun r =>
                 Row.mk (Row.id r) (Row.name r) (Row.secure_c_ses r)
                        (Row.host_c_oses r) (Row.csesidx r) (Row.config_id r)
                        (Row.is_active r) (Some 0) (Row.last_used_at r)
                        (Row.created_at r))
              (rows t))
         (id_seq t)
         (List.filter (fun c => negb (bool_decide (c = Crequest_count))) (lacks t))
  else t.

(** The script of [_init_schema], run as one transaction.  Without a
    relation it creates the table, empty, with its sequence at 1.  An
    existing relation is kept ([IF NOT EXISTS]) and gets [request_count] if
    it lacks it; the index on [is_active] then needs that column. *)
Definition run_schema (o : option Table) : outcome Table :=
  match o with
  | None => Return (mkTable [] 1 [])
  | Some t =>
      andThen (check_columns (lacks (add_request_count t)) [Cis_active])
              (fun _ => Return (add_request_count t))
  end.

(** [execute q args now db]: what [conn.execute] or [conn.fetch] yields for
    statement [q] with arguments [args] at server time [now], and the
    database afterwards.  A statement that names a column the relation
    lacks is refused when it is prepared, before its arguments are bound.  A
    statement that fails leaves every row as it was; the schema script that
    fails leaves the relation as it was. *)
Definition execute (q : sql) (args : list pyval) (now : Z) (db : Database)
  : outcome (list Row.t) * Database :=
  let db := record_call q args db in
  match q, relation db with
  | CreateSchema, o =>
      match run_schema o with
      | Return t => (Return [], with_table t db)
      | Raise e => (Raise e, db)
      end
  | _, None => (Raise UndefinedTableError, db)
  | SelectActive, Some t =>
      match check_columns (lacks t) (mentioned SelectActive) with
      | Return _ => (Return (select_active (rows t)), db)
      | Raise e => (Raise e, db)
      end
  | SelectAll, Some t =>
      match check_columns (lacks t) (mentioned SelectAll) with
      | Return _ => (Return (select_all (rows t)), db)
      | Raise e => (Raise e, db)
      end
  | Update set_clauses where_id, Some t =>
      match andThen (check_columns (lacks t) (mentioned q))
                    (fun _ => run_update set_clauses where_id args now (rows t)) with
      | Return rows' =>
          (Return [], with_table (mkTable rows' (id_seq t) (lacks t)) db)
      | Raise e => (Raise e, db)
      end
  | InsertAccount, Some t =>
      match check_columns (lacks t) (mentioned InsertAccount) with
      | Raise e => (Raise e, db)
      | Return _ =>
          let '(o, seq) := run_insert args now (rows t) (id_seq t) in
          match o with
          | Return rows' => (Return [], with_table (mkTable rows' seq (lacks t)) db)
          | Raise e => (Raise e, with_table (mkTable (rows t) seq (lacks t)) db)
          end
      end
  | DeleteById, Some t =>
      match andThen (check_columns (lacks t) (mentioned DeleteById))
                    (fun _ => run_delete args (rows t)) with
      | Return rows' =>
          (Return [], with_table (mkTable rows' (id_seq t) (lacks t)) db)
      | Raise e => (Raise e, db)
      end
  end.

(** ** The manager and its environment *)

(** An [asyncpg.Pool]: its size bounds and whether [close] has been called. *)
Record Pool := mkPool {
  min_size : nat;
  max_size : nat;
  closed : bool
}.

Record DatabaseManager := mkManager {
  pool : option Pool;
  database_url : option string
}.

Inductive level := INFO | WARNING | ERROR.

(** What lies outside the object: the process environment, which data source
    names the server accepts, the server's clock, the database itself and
    the records written to the logger [gemini.db]. *)
Record World := mkWorld {
  environ : gmap string string;
  reachable : string -> bool;
  clock : Z;
  database : Database;
  logged : list (level * string)
}.

Record State := mkState {
  self : DatabaseManager;
  world : World
}.

(** ** A state and exception monad for the methods *)

Definition M (A : Type) : Type := State -> outcome A * State.

#[global] Instance M_ret : MRet M := fun A a st => (Return a, st).

#[global] Instance M_bind : MBind M := fun A B k m st =>
  match m st with
  | (Return a, st') => k a st'
  | (Raise e, st') => (Raise e, st')
  end.

Definition raise {A} (e : exn) : M A := fun st => (Raise e, st).

(** [try: body / except Exception as e: handler e]. *)
Definition try_except {A} (body : M A) (handler : exn -> M A) : M A := fun st =>
  match body st with
  | (Return a, st') => (Return a, st')
  | (Raise e, st') => handler e st'
  end.

Definition get_self : M DatabaseManager := fun st => (Return (self st), st).

Definition set_pool (p : Pool) : M unit := fun st =>
  (Return tt, mkState (mkManager (Some p) (database_url (self st))) (world st)).

Definition log (lv : level) (msg : string) : M unit := fun st =>
  let w := world st in
  (Return tt,
   mkState (self st)
     (mkWorld (environ w) (reachable w) (clock w) (database w)
              (logged w ++ [(lv, msg)]))).

(** *** asyncpg *)

(** [asyncpg.create_pool(dsn, min_size=.., max_size=..)]. *)
Definition create_pool (dsn : string) (min_size max_size : nat) : M Pool := fun st =>
  if reachable (world st) dsn
  then (Return (mkPool min_size max_size false), st)
  else (Raise (ConnectionFailure dsn), st).

(** [pool.acquire()]: a closed pool refuses. *)
Definition acquire (p : Pool) : M unit := fun st =>
  if closed p then (Raise (InterfaceError "pool is closed"), st)
  else (Return tt, st).

(** [pool.close()], on the pool object the manager refers to. *)
Definition close : M unit := fun st =>
  match pool (self st) with
  | Some p =>
      (Return tt,
       mkState (mkManager (Some (mkPool (min_size p) (max_size p) true))
                          (database_url (self st)))
               (world st))
  | None => (Return tt, st)
  end.

(** [conn.execute(q, *args)] and [conn.fetch(q, *args)]. *)
Definition conn_execute (q : sql) (args : list pyval) : M (list Row.t) := fun st =>
  let w := world st in
  let '(o, db) := execute q args (clock w) (database w) in
  (o, mkState (self st) (mkWorld (environ w) (reachable w) (clock w) db (logged w))).

(** [str(e)], as it enters the log. *)
Definition str_exn (e : exn) : string :=
  match e with
  | AttributeError => "'NoneType' object has no attribute 'acquire'"
  | InterfaceError msg => msg
  | ConnectionFailure dsn => "could not connect"
  | DataError => "invalid input for query argument"
  | TooFewArguments => "the server expects more arguments for this query"
  | UndefinedTableError => "relation does not exist"
  | UndefinedColumnError c => "column does not exist"
  | DatatypeMismatchError c => "column is of another type"
  | CharacterNotInRepertoireError => "invalid byte sequence for encoding"
  | StringDataRightTruncationError => "value too long for type character varying(255)"
  | NumericValueOutOfRangeError => "bigint out of range"
  | NotNullViolationError c => "null value violates not-null constraint"
  | UniqueViolationError => "duplicate key value violates unique constraint"
  | SequenceLimitError => "nextval: reached maximum value of sequence"
  end.

(** ** [class DatabaseManager] *)

(** Python truth of [self.database_url]: [None] and the empty string are
    false. *)
Definition truthy_url (u : option string) : option string :=
  match u with
  | Some s => if String.eqb s "" then None else Some s
  | None => None
  end.

(** [__init__]: no pool yet; the connection string is read here. *)
Definition init (w : World) : State :=
  mkState (mkManager None (environ w !! "DATABASE_URL")) w.

Definition _init_schema : M unit :=
  me ← get_self;
  match pool me with
  | None => raise AttributeError
  | Some p => acquire p ;; conn_execute CreateSchema [] ;; mret tt
  end.

Definition connect : M unit :=
  me ← get_self;
  match truthy_url (database_url me) with
  | None => log WARNING "DATABASE_URL not set. Database features disabled."
  | Some dsn =>
      try_except
        (p ← create_pool dsn 1 10;
         set_pool p ;;
         _init_schema ;;
         log INFO "✅ Database connected successfully")
        (fun e =>
           log ERROR ("❌ Database connection failed: " +:+ str_exn e) ;;
           raise e)
  end.

Definition disconnect : M unit :=
  me ← get_self;
  match pool me with
  | Some _ => close
  | None => mret tt
  end.

Definition fetch_active_accounts : M (list Row.t) :=
  me ← get_self;
  match pool me with
  | None => mret []
  | Some p => acquire p ;; conn_execute SelectActive []
  end.

Definition increment_account_usage (account_id : Z) : M unit :=
  me ← get_self;
  match pool me with
  | None => mret tt
  | Some p =>
      acquire p ;;
      conn_execute
        (Update [("last_used_at", NOW); ("request_count", RequestCountPlusOne)] 1)
        [PInt account_id] ;;
      mret tt
  end.

Definition update_account_usage (account_id : Z) : M unit :=
  me ← get_self;
  match pool me with
  | None => mret tt
  | Some p =>
      acquire p ;;
      conn_execute (Update [("last_used_at", NOW)] 1) [PInt account_id] ;;
      mret tt
  end.

Definition add_account (name secure_c_ses host_c_oses csesidx config_id : pyval)
  : M unit :=
  me ← get_self;
  match pool me with
  | None => mret tt
  | Some p =>
      acquire p ;;
      conn_execute InsertAccount
        [name; secure_c_ses; host_c_oses; csesidx; config_id] ;;
      mret tt
  end.

Definition get_all_accounts : M (list Row.t) :=
  me ← get_self;
  match pool me with
  | None => mret []
  | Some p => acquire p ;; conn_execute SelectAll []
  end.

(** The keys [update_account] looks for, in the order of its loop. *)
Definition mutable_keys : list string :=
  ["name"; "secure_c_ses"; "host_c_oses"; "csesidx"; "config_id"; "is_active"].

(** One turn of the loop of [update_account] over
    [(set_clauses, values, idx)]; the clause [(key, Param idx)] is the text
    [key = $idx]. *)
Definition collect (data : gmap string pyval)
  (acc : list (string * expr) * list pyval * nat) (key : string)
  : list (string * expr) * list pyval * nat :=
  let '(set_clauses, values, idx) := acc in
  match data !! key with
  | Some v => (set_clauses ++ [(key, Param idx)], values ++ [v], S idx)
  | None => acc
  end.

Definition update_account (id : Z) (data : gmap string pyval) : M unit :=
  me ← get_self;
  match pool me with
  | None => mret tt
  | Some p =>
      let '(set_clauses, values, idx) :=
        fold_left (collect data) mutable_keys ([], [], 1%nat) in
      match set_clauses with
      | [] => mret tt
      | _ :: _ =>
          let values := values ++ [PInt id] in
          acquire p ;;
          conn_execute (Update set_clauses idx) values ;;
          mret tt
      end
  end.

Definition delete_account (id : Z) : M unit :=
  me ← get_self;
  match pool me with
  | None => mret tt
  | Some p => acquire p ;; conn_execute DeleteById [PInt id] ;; mret tt
  end.

(** ** Observations on a state *)

Definition table_of (st : State) : option Table := relation (database (world st)).

Definition rows_of (st : State) : list Row.t :=
  match table_of st with
  | Some t => rows t
  | None => []
  end.

Definition calls_of (st : State) : list (sql * list pyval) :=
  submitted (database (world st)).

(** The manager holds a pool that has not been closed. *)
Definition open_pool (st : State) : bool :=
  match pool (self st) with
  | Some p => negb (closed p)
  | None => false
  end.

(** A legal instance of the schema: the table has every column, the primary
    key is unique, and every [id] was drawn from the sequence, which counts
    from 1 and ends at the largest [INTEGER]. *)
Definition legal (t : Table) : bool :=
  match lacks t with [] => true | _ :: _ => false end
  && unique_ids (rows t)
  && forallb (fun r => (1 <=? Row.id r) && (Row.id r <? id_seq t)) (rows t)
  && (1 <=? id_seq t) && (id_seq t <=? int4_max + 1).

(** A connected store: an open pool, and the table exists. *)
Definition connected (st : State) : bool :=
  open_pool st &&
  match table_of st with
  | Some t => legal t
  | None => false
  end.

(** The server's clock moves to [t]. *)
Definition at_time (t : Z) (st : State) : State :=
  let w := world st in
  mkState (self st)
          (mkWorld (environ w) (reachable w) t (database w) (logged w)).

(** The process environment becomes that of [w]; the manager is kept. *)
Definition in_world (w : World) (st : State) : State := mkState (self st) w.

(** [connect] ends in disabled mode: it returns and there is no pool. *)
Definition enters_disabled_mode (st : State) : Prop :=
  (connect st).1 = Return tt /\ pool (self (connect st).2) = None.

(** ** Sample environments *)

(** No [DATABASE_URL] in the environment, an empty database server. *)
Definition unconfigured_world : World :=
  mkWorld ∅ (fun _ => true) 0 fresh_database [].

(** [DATABASE_URL] names a server that accepts connections. *)
Definition configured_world : World :=
  mkWorld {[ "DATABASE_URL" := "postgres://db/gemini" ]} (fun _ => true) 0
          fresh_database [].

(** [DATABASE_URL] is set, to the empty string. *)
Definition blank_world : World :=
  mkWorld {[ "DATABASE_URL" := "" ]} (fun _ => true) 0 fresh_database [].

(** ** What the statements are meant to do, row by row *)

(** [f] applied to the rows whose [id] is [i], the others kept. *)
Definition on_id (i : Z) (f : Row.t -> Row.t) (r : Row.t) : Row.t :=
  if Row.id r =? i then f r else r.

(** The timestamp refreshed, nothing else. *)
Definition touched (now : Z) (r : Row.t) : Row.t :=
  Row.mk (Row.id r) (Row.name r) (Row.secure_c_ses r) (Row.host_c_oses r)
         (Row.csesidx r) (Row.config_id r) (Row.is_active r)
         (Row.request_count r) (Some now) (Row.created_at r).

(** The timestamp refreshed and [n] more requests counted. *)
Definition used (n : Z) (now : Z) (r : Row.t) : Row.t :=
  Row.mk (Row.id r) (Row.name r) (Row.secure_c_ses r) (Row.host_c_oses r)
         (Row.csesidx r) (Row.config_id r) (Row.is_active r)
         ((fun q => q + n) <$> Row.request_count r) (Some now) (Row.created_at r).

(** The counter of [r] holds a number that can still grow by [n]. *)
Definition can_count (n : Z) (r : Row.t) : bool :=
  match Row.request_count r with
  | Some q => q + n <=? int8_max
  | None => false
  end.

(** The state with the database replaced. *)
Definition with_database (db : Database) (st : State) : State :=
  let w := world st in
  mkState (self st) (mkWorld (environ w) (reachable w) (clock w) db (logged w)).

(** A method that acquires a connection and makes one call [q], discarding
    what the call returns. *)
Definition one_call (q : sql) (args : list pyval) (st : State) : outcome unit * State :=
  let r := execute q args (clock (world st)) (database (world st)) in
  (andThen r.1 (fun _ => Return tt), with_database r.2 st).

Arguments execute : simpl never.
Arguments run_update : simpl never.
Arguments run_insert : simpl never.
Arguments run_delete : simpl never.
Arguments select_active : simpl never.
Arguments select_all : simpl never.
Arguments check_columns : simpl never.
Arguments run_schema : simpl never.

(** ** Sample stores *)

Definition sample_row (i : Z) (count : option Z) : Row.t :=
  Row.mk i (Some "acct") "sc" (Some "") "idx" "cfg" (Some true) count None (Some 0).

(** A manager with an open pool over a table holding [rs], at time 1000. *)
Definition store_with (rs : list Row.t) (seq : Z) : State :=
  mkState (mkManager (Some (mkPool 1 10 false)) (Some "postgres://db/gemini"))
          (mkWorld {[ "DATABASE_URL" := "postgres://db/gemini" ]} (fun _ => true)
                   1000 (mkDatabase (Some (mkTable rs seq [])) []) []).

(** A manager that has not connected yet, over a database whose table an
    earlier version created without the columns [lacking]. *)
Definition older_store (lacking : list column) (rs : list Row.t) (seq : Z) : State :=
  mkState (mkManager None (Some "postgres://db/gemini"))
          (mkWorld {[ "DATABASE_URL" := "postgres://db/gemini" ]} (fun _ => true)
                   1000 (mkDatabase (Some (mkTable rs seq lacking)) []) []).

(** ** Arguments the columns accept *)

(** An optional string as a Python value. *)
Definition opt_str (o : option string) : pyval :=
  match o with
  | Some s => PStr s
  | None => PNone
  end.

(** A [name]: absent, or a text of at most 255 characters. *)
Definition valid_name (o : option string) : bool :=
  match o with
  | Some s => valid_text s && (char_length s <=? 255)%nat
  | None => true
  end.

Definition valid_optional_text (o : option string) : bool :=
  match o with
  | Some s => valid_text s
  | None => true
  end.

(** The value [nextval] would hand out now. *)
Definition next_id (st : State) : Z :=
  match table_of st with
  | Some t => id_seq t
  | None => 1
  end.

(** The row [add_account] is to create. *)
Definition inserted (i : Z) (now : Z) (name : option string) (secure_c_ses : string)
  (host_c_oses : option string) (csesidx config_id : string) : Row.t :=
  Row.mk i name secure_c_ses host_c_oses csesidx config_id
         (Some true) (Some 0) None (Some now).

(** A name of 256 characters. *)
Definition long_name : string := string_of_list_ascii (repeat "a"%char 256).

(** A name of 86 characters that take three bytes each: 258 bytes. *)
Definition wide_name : string := String.concat "" (repeat "✅" 86).

(** A text with a NUL character in it. *)
Definition nul_text : string := String "a" (String NUL (String "b" EmptyString)).

(** ** Columns, read and written *)

Definition text_or_null (o : option string) : sqlval :=
  match o with Some s => VText s | None => VNull end.
Definition int_or_null (o : option Z) : sqlval :=
  match o with Some n => VInt n | None => VNull end.
Definition bool_or_null (o : option bool) : sqlval :=
  match o with Some b => VBool b | None => VNull end.
Definition time_or_null (o : option Z) : sqlval :=
  match o with Some t => VTime t | None => VNull end.

(** The value of column [c] in row [r]. *)
Definition read (c : column) (r : Row.t) : sqlval :=
  match c with
  | Cid => VInt (Row.id r)
  | Cname => text_or_null (Row.name r)
  | Csecure_c_ses => VText (Row.secure_c_ses r)
  | Chost_c_oses => text_or_null (Row.host_c_oses r)
  | Ccsesidx => VText (Row.csesidx r)
  | Cconfig_id => VText (Row.config_id r)
  | Cis_active => bool_or_null (Row.is_active r)
  | Crequest_count => int_or_null (Row.request_count r)
  | Clast_used_at => time_or_null (Row.last_used_at r)
  | Ccreated_at => time_or_null (Row.created_at r)
  end.

(** The columns behind [mutable_keys]. *)
Definition mutable (c : column) : bool :=
  match c with
  | Cname | Csecure_c_ses | Chost_c_oses | Ccsesidx | Cconfig_id | Cis_active => true
  | Cid | Crequest_count | Clast_used_at | Ccreated_at => false
  end.

(** A value of SQL type [ty] (NULL belongs to every type). *)
Definition fits (ty : sqltype) (x : sqlval) : bool :=
  match x, ty with
  | VNull, _ => true
  | VInt _, (TInt4 | TInt8) => true
  | VText _, (TText | TVarchar _) => true
  | VBool _, TBool => true
  | VTime _, TTimestamp => true
  | _, _ => false
  end.

(** What column [c] holds once the Python value [v] has been bound to a
    parameter and stored, if driver and server take it. *)
Definition stored (c : column) (v : pyval) : option sqlval :=
  match encode (column_type c) v with
  | Some x =>
      match coerce (column_type c) x with
      | Return y => Some y
      | Raise _ => None
      end
  | None => None
  end.

(** A Python value as the SQL value of the same content. *)
Definition sql_of (v : pyval) : sqlval :=
  match v with
  | PNone => VNull
  | PBool b => VBool b
  | PInt n => VInt n
  | PStr s => VText s
  | PDatetime t => VTime t
  end.

(** Values a mutable column takes as they are, whatever rows match. *)
Definition accepts (c : column) (v : pyval) : bool :=
  match c, v with
  | Cname, PNone => true
  | Cname, PStr s => valid_text s && (char_length s <=? 255)%nat
  | Chost_c_oses, PNone => true
  | (Csecure_c_ses | Chost_c_oses | Ccsesidx | Cconfig_id), PStr s => valid_text s
  | Cis_active, (PNone | PBool _) => true
  | _, _ => false
  end.

(** ** The loop of [update_account], summarised *)

(** The recognised keys present in [data], in loop order, with their
    values. *)
Definition supplied (data : gmap string pyval) (keys : list string)
  : list (string * pyval) :=
  omap (fun k => (fun v => (k, v)) <$> data !! k) keys.

(** The [SET] clauses for them, numbering the placeholders from [idx]. *)
Fixpoint number (idx : nat) (l : list (string * pyval)) : list (string * expr) :=
  match l with
  | [] => []
  | (k, _) :: l' => (k, Param idx) :: number (S idx) l'
  end.

(** Column [c] of [r] after an update with [data]: the supplied value for a
    mutable column whose key is present, the old value otherwise. *)
Definition new_value (data : gmap string pyval) (c : column) (r : Row.t) : sqlval :=
  if mutable c then
    match data !! key_of c with
    | Some v => default (read c r) (stored c v)
    | None => read c r
    end
  else read c r.

Definition mutable_columns : list column :=
  [Cname; Csecure_c_ses; Chost_c_oses; Ccsesidx; Cconfig_id; Cis_active].

(** Every value supplied for a recognised key is one its column accepts. *)
Definition acceptable (data : gmap string pyval) : bool :=
  forallb (fun c => match data !! key_of c with
                    | Some v => accepts c v
                    | None => true
                    end)
          mutable_columns.

(** Every row with [id] [i] has a counter that can grow by [n]. *)
Definition can_count_at (n : Z) (i : Z) (st : State) : bool :=
  forallb (fun r => implb (Row.id r =? i) (can_count n r)) (rows_of st).

(** One supplied value bound to the parameter of its [SET] clause. *)
Definition bind_value (kv : string * pyval) : outcome (column * operand) :=
  match column_of kv.1 with
  | Some c =>
      match encode (column_type c) kv.2 with
      | Some x => Return (c, Bound x)
      | None => Raise DataError
      end
  | None => Raise (UndefinedColumnError kv.1)
  end.

(** [cy] is the clause planned for the supplied pair [kv]: the column of the
    key with the value as the column stores it. *)
Definition placed (kv : string * pyval) (cy : column * sqlval) : Prop :=
  column_of kv.1 = Some cy.1 /\ stored cy.1 kv.2 = Some cy.2.

Definition to_bound (cy : column * sqlval) : column * operand := (cy.1, Bound cy.2).

(** The assignments of one [UPDATE] applied to a row, in order. *)
Fixpoint assign_all (l : list (column * sqlval)) (r : Row.t) : outcome Row.t :=
  match l with
  | [] => Return r
  | (c, y) :: l' => andThen (assign c y r) (assign_all l')
  end.

(** Row [r'] is row [r] after [update_account i data]: untouched unless its
    [id] is [i], and then column by column as [new_value] says. *)
Definition updated (data : gmap string pyval) (i : Z) (r r' : Row.t) : Prop :=
  if Row.id r =? i then forall c, read c r' = new_value data c r else r' = r.

(** Column [c] of [r] with the supplied value written as it is. *)
Definition patched (data : gmap string pyval) (c : column) (r : Row.t) : sqlval :=
  if mutable c then
    match data !! key_of c with
    | Some v => sql_of v
    | None => read c r
    end
  else read c r.

(** ** Histories of calls *)

Inductive call :=
| Connect
| Disconnect
| FetchActiveAccounts
| IncrementAccountUsage (account_id : Z)
| UpdateAccountUsage (account_id : Z)
| AddAccount (name secure_c_ses host_c_oses csesidx config_id : pyval)
| GetAllAccounts
| UpdateAccount (id : Z) (data : gmap string pyval)
| DeleteAccount (id : Z).

(** The state a call leaves behind, whether it returns or raises. *)
Definition perform (c : call) (st : State) : State :=
  match c with
  | Connect => (connect st).2
  | Disconnect => (disconnect st).2
  | FetchActiveAccounts => (fetch_active_accounts st).2
  | IncrementAccountUsage i => (increment_account_usage i st).2
  | UpdateAccountUsage i => (update_account_usage i st).2
  | AddAccount n s h x g => (add_account n s h x g st).2
  | GetAllAccounts => (get_all_accounts st).2
  | UpdateAccount i data => (update_account i data st).2
  | DeleteAccount i => (delete_account i st).2
  end.

(** A history: calls, each made when the server's clock shows the given
    time. *)
Fixpoint perform_all (cs : list (Z * call)) (st : State) : State :=
  match cs with
  | [] => st
  | (now, c) :: cs' => perform_all cs' (perform c (at_time now st))
  end.

(** The table, if there is one, is a legal instance of the schema.  This
    holds before the schema is created and is kept by every call. *)
Definition sound (st : State) : bool :=
  match table_of st with
  | Some t => legal t
  | None => true
  end.

(** A counter that has not decreased (NULL stays NULL). *)
Definition count_le (a b : option Z) : Prop :=
  match a, b with
  | Some x, Some y => x <= y
  | None, None => True
  | _, _ => False
  end.

(** [r'] is a later version of the account [r]. *)
Definition evolves (r r' : Row.t) : Prop :=
  Row.id r' = Row.id r /\
  Row.created_at r' = Row.created_at r /\
  count_le (Row.request_count r) (Row.request_count r').

(** The columns [update_account] has no key for are the same in [r'] as in
    [r]. *)
Definition protected_kept (r r' : Row.t) : Prop :=
  Row.id r' = Row.id r /\
  Row.request_count r' = Row.request_count r /\
  Row.last_used_at r' = Row.last_used_at r /\
  Row.created_at r' = Row.created_at r.

(** From [st] to [st']: the table stays legal, the sequence does not go
    back, and every row is a later version of an old row or carries an [id]
    the sequence had not yet handed out. *)
Definition advances (st st' : State) : Prop :=
  sound st' = true /\
  next_id st <= next_id st' /\
  forall r', r' ∈ rows_of st' ->
             (exists r, r ∈ rows_of st /\ evolves r r') \/ next_id st <= Row.id r'.

(** ** Outcomes of calls *)

Definition raised {A} (o : outcome A) : bool :=
  match o with
  | Raise _ => true
  | Return _ => false
  end.

(** The call raises instead of returning. *)
Definition raises (c : call) (st : State) : bool :=
  match c with
  | Connect => raised (connect st).1
  | Disconnect => raised (disconnect st).1
  | FetchActiveAccounts => raised (fetch_active_accounts st).1
  | IncrementAccountUsage i => raised (increment_account_usage i st).1
  | UpdateAccountUsage i => raised (update_account_usage i st).1
  | AddAccount n s h x g => raised (add_account n s h x g st).1
  | GetAllAccounts => raised (get_all_accounts st).1
  | UpdateAccount i data => raised (update_account i data st).1
  | DeleteAccount i => raised (delete_account i st).1
  end.

(** The calls that send no writing statement. *)
Definition read_only (c : call) : bool :=
  match c with
  | FetchActiveAccounts | GetAllAccounts | Disconnect => true
  | _ => false
  end.

(** The mapping sets [is_active] to false or to NULL. *)
Definition deactivating (data : gmap string pyval) : bool :=
  match data !! "is_active" with
  | Some (PBool false) | Some PNone => true
  | _ => false
  end.

(** [ORDER BY id ASC] over a primary key. *)
Definition by_id_strict (r1 r2 : Row.t) : Prop := Row.id r1 < Row.id r2.

(** The rows whose [id] is not [i]. *)
Definition without_id (i : Z) (rs : list Row.t) : list Row.t :=
  List.filter (fun r => negb (Row.id r =? i)) rs.

(** [n] calls of [increment_account_usage i], made at the times [ts]. *)
Definition increments (i : Z) (ts : list Z) : list (Z * call) :=
  map (fun t => (t, IncrementAccountUsage i)) ts.

(** * Properties *)

Ltac run_method :=
  cbv beta iota zeta delta
    [connect _init_schema disconnect fetch_active_accounts
     increment_account_usage update_account_usage add_account
     get_all_accounts update_account delete_account
     mbind mret M_bind M_ret get_self set_pool log raise try_except
     create_pool acquire close conn_execute].

(** ** Disabled mode *)

Section Disabled.
Variable st : State.
Hypothesis no_pool : pool (self st) = None.

Lemma disabled_fetch_active_accounts : fetch_active_accounts st = (Return [], st).
Proof. run_method. simpl. now rewrite no_pool. Qed.

Lemma disabled_get_all_accounts : get_all_accounts st = (Return [], st).
Proof. run_method. simpl. now rewrite no_pool. Qed.

Lemma disabled_add_account a b c d e : add_account a b c d e st = (Return tt, st).
Proof. run_method. simpl. now rewrite no_pool. Qed.

Lemma disabled_update_account i data : update_account i data st = (Return tt, st).
Proof. unfold update_account. run_method. simpl. now rewrite no_pool. Qed.

Lemma disabled_delete_account i : delete_account i st = (Return tt, st).
Proof. run_method. simpl. now rewrite no_pool. Qed.

Lemma disabled_increment_account_usage i :
  increment_account_usage i st = (Return tt, st).
Proof. run_method. simpl. now rewrite no_pool. Qed.

Lemma disabled_update_account_usage i : update_account_usage i st = (Return tt, st).
Proof. run_method. simpl. now rewrite no_pool. Qed.

Lemma disabled_disconnect : disconnect st = (Return tt, st).
Proof. run_method. simpl. now rewrite no_pool. Qed.
End Disabled.

Lemma connect_without_url st :
  truthy_url (database_url (self st)) = None ->
  connect st =
  (Return tt,
   mkState (self st)
     (mkWorld (environ (world st)) (reachable (world st)) (clock (world st))
        (database (world st))
        (logged (world st)
           ++ [(WARNING, "DATABASE_URL not set. Database features disabled.")]))).
Proof. intros H. run_method. simpl. now rewrite H. Qed.

(** C1. With no connection string configured and no pool, [connect] returns
    without raising and leaves the store without a pool and the database
    untouched; from then on both reads return the empty list, every write
    and usage method (and [disconnect]) returns without any effect, and none
    of them raises. *)
Theorem disabled_mode_is_silent (st : State) :
  truthy_url (database_url (self st)) = None ->
  pool (self st) = None ->
  let st' := (connect st).2 in
  (connect st).1 = Return tt /\
  pool (self st') = None /\
  database (world st') = database (world st) /\
  fetch_active_accounts st' = (Return [], st') /\
  get_all_accounts st' = (Return [], st') /\
  (forall a b c d e, add_account a b c d e st' = (Return tt, st')) /\
  (forall i data, update_account i data st' = (Return tt, st')) /\
  (forall i, delete_account i st' = (Return tt, st')) /\
  (forall i, increment_account_usage i st' = (Return tt, st')) /\
  (forall i, update_account_usage i st' = (Return tt, st')) /\
  disconnect st' = (Return tt, st').
Proof.
  intros Hurl Hpool st'.
  assert (Hp : pool (self st') = None).
  { subst st'. rewrite connect_without_url by exact Hurl. exact Hpool. }
  repeat split.
  - now rewrite connect_without_url.
  - exact Hp.
  - subst st'. now rewrite connect_without_url.
  - now apply disabled_fetch_active_accounts.
  - now apply disabled_get_all_accounts.
  - intros. now apply disabled_add_account.
  - intros. now apply disabled_update_account.
  - intros. now apply disabled_delete_account.
  - intros. now apply disabled_increment_account_usage.
  - intros. now apply disabled_update_account_usage.
  - now apply disabled_disconnect.
Qed.

Lemma disabled_mode_is_silent_witness :
  (connect (init unconfigured_world)).1 = Return tt /\
  get_all_accounts (connect (init unconfigured_world)).2
  = (Return [], (connect (init unconfigured_world)).2).
Proof.
  pose proof (disabled_mode_is_silent (init unconfigured_world)
                eq_refl eq_refl) as H.
  cbv zeta in H. split; [apply H | apply H].
Defined.

(** ** Connecting *)

Lemma check_columns_nil cs : check_columns [] cs = Return tt.
Proof. induction cs as [|c cs IH]; [reflexivity|exact IH]. Qed.

Lemma add_request_count_current t : lacks t = [] -> add_request_count t = t.
Proof. intros H. unfold add_request_count. now rewrite H. Qed.

Lemma run_schema_current t : lacks t = [] -> run_schema (Some t) = Return t.
Proof.
  intros H. unfold run_schema. rewrite (add_request_count_current t H), H.
  now rewrite check_columns_nil.
Qed.

(** Once [create_pool] has succeeded the pool is assigned, whether or not the
    schema script then goes through. *)
Lemma connect_reachable st dsn :
  truthy_url (database_url (self st)) = Some dsn ->
  reachable (world st) dsn = true ->
  pool (self (connect st).2) = Some (mkPool 1 10 false).
Proof.
  intros Hurl Hreach. run_method. simpl. rewrite Hurl, Hreach. simpl.
  unfold execute. simpl.
  destruct (run_schema (relation (database (world st)))); reflexivity.
Qed.

Lemma connect_unreachable st dsn :
  truthy_url (database_url (self st)) = Some dsn ->
  reachable (world st) dsn = false ->
  (connect st).1 = Raise (ConnectionFailure dsn) /\
  self (connect st).2 = self st.
Proof.
  intros Hurl Hreach. run_method. simpl. rewrite Hurl, Hreach. simpl. auto.
Qed.

(** C8, as the code has it.  The connection string is the one [__init__]
    read when the manager was constructed (in environment [w0]); [connect],
    called later in environment [w1], enters disabled mode exactly when that
    stored string is absent or empty, whatever [w1] holds. *)
Theorem disabled_iff_no_url_at_construction (w0 w1 : World) :
  enters_disabled_mode (in_world w1 (init w0)) <->
  truthy_url (environ w0 !! "DATABASE_URL") = None.
Proof.
  unfold enters_disabled_mode. split.
  - intros [Hret Hpool].
    destruct (truthy_url (environ w0 !! "DATABASE_URL")) as [dsn|] eqn:Hurl;
      [exfalso | reflexivity].
    destruct (reachable w1 dsn) eqn:Hr.
    + pose proof (connect_reachable (in_world w1 (init w0)) dsn Hurl Hr) as H.
      rewrite H in Hpool. discriminate.
    + destruct (connect_unreachable (in_world w1 (init w0)) dsn Hurl Hr) as [H _].
      rewrite H in Hret. discriminate.
  - intros Hurl. rewrite connect_without_url by exact Hurl. split; reflexivity.
Qed.

(** C8 as stated fails: a manager constructed while [DATABASE_URL] was unset
    stays disabled when [connect] is called with the variable set, and a
    variable that is present but empty disables the store as well. *)
Lemma connect_ignores_later_environment :
  (enters_disabled_mode (in_world configured_world (init unconfigured_world))
   /\ environ configured_world !! "DATABASE_URL" <> None)
  /\ (enters_disabled_mode (in_world blank_world (init blank_world))
      /\ environ blank_world !! "DATABASE_URL" <> None).
Proof.
  repeat split; try discriminate.
Qed.

(** ** After [disconnect] *)

(** C9. [disconnect] on a manager that holds a pool closes the pool but keeps
    the handle: the store does not fall back to disabled mode, and every
    later operation raises the pool's [InterfaceError] instead of returning
    an empty list or doing nothing. *)
Theorem disconnect_keeps_closed_pool (st : State) (p : Pool) :
  pool (self st) = Some p ->
  let st' := (disconnect st).2 in
  let closed_pool := InterfaceError "pool is closed" in
  (disconnect st).1 = Return tt /\
  pool (self st') = Some (mkPool (min_size p) (max_size p) true) /\
  world st' = world st /\
  get_all_accounts st' = (Raise closed_pool, st') /\
  fetch_active_accounts st' = (Raise closed_pool, st') /\
  (forall a b c d e, add_account a b c d e st' = (Raise closed_pool, st')) /\
  (forall i, delete_account i st' = (Raise closed_pool, st')) /\
  (forall i, increment_account_usage i st' = (Raise closed_pool, st')) /\
  (forall i, update_account_usage i st' = (Raise closed_pool, st')).
Proof.
  intros Hp. run_method. simpl. rewrite Hp. simpl. rewrite Hp. simpl.
  repeat split.
Qed.

Lemma disconnect_keeps_closed_pool_witness :
  let st := (connect (init configured_world)).2 in
  (disconnect st).1 = Return tt /\
  get_all_accounts (disconnect st).2
  = (Raise (InterfaceError "pool is closed"), (disconnect st).2).
Proof.
  intros st.
  pose proof (disconnect_keeps_closed_pool st (mkPool 1 10 false) eq_refl) as H.
  cbv zeta in H. split; [apply H | apply H].
Defined.

(** ** Fallible maps *)

Lemma mapM_Return_map {A B} (g : A -> outcome B) (f : A -> B) (l : list A) :
  (forall a, a ∈ l -> g a = Return (f a)) -> mapM g l = Return (map f l).
Proof.
  induction l as [|a l IH]; intros H; simpl; [reflexivity|].
  rewrite H by left. simpl. rewrite IH; [reflexivity|].
  intros b Hb. apply H. now right.
Qed.

Lemma mapM_Return_inv {A B} (g : A -> outcome B) (l : list A) (l' : list B) :
  mapM g l = Return l' -> Forall2 (fun a b => g a = Return b) l l'.
Proof.
  revert l'. induction l as [|a l IH]; intros l' H; simpl in H.
  - injection H as <-. constructor.
  - destruct (g a) as [b|] eqn:Hb; simpl in H; [|discriminate].
    destruct (mapM g l) as [bs|] eqn:Hbs; simpl in H; [|discriminate].
    injection H as <-. constructor; auto.
Qed.

(** ** The primary key *)

Lemma unique_ids_ids (l l' : list Row.t) :
  map Row.id l = map Row.id l' -> unique_ids l = unique_ids l'.
Proof.
  revert l'. induction l as [|r l IH]; intros [|r' l'] H; simpl in *;
    try discriminate; [reflexivity|].
  injection H as Hr Hl. rewrite (IH l' Hl). f_equal. f_equal.
  rewrite Hr. clear -Hl. revert l' Hl.
  induction l as [|a l IH]; intros [|a' l'] H; simpl in *;
    try discriminate; [reflexivity|].
  injection H as Ha Hl. rewrite Ha. f_equal. auto.
Qed.

Lemma unique_ids_map (f : Row.t -> Row.t) (l : list Row.t) :
  (forall r, Row.id (f r) = Row.id r) -> unique_ids (map f l) = unique_ids l.
Proof.
  intros H. apply unique_ids_ids. rewrite map_map.
  apply map_ext. exact H.
Qed.

Lemma on_id_id i f r : (forall r, Row.id (f r) = Row.id r) -> Row.id (on_id i f r) = Row.id r.
Proof. intros H. unfold on_id. destruct (Row.id r =? i); auto. Qed.

Lemma on_id_no_match i f (l : list Row.t) :
  Forall (fun r => Row.id r <> i) l -> map (on_id i f) l = l.
Proof.
  induction 1 as [|r l Hr _ IH]; simpl; [reflexivity|].
  rewrite IH. unfold on_id. destruct (Z.eqb_spec (Row.id r) i); congruence.
Qed.

(** ** Connected states *)

Lemma connected_inv st :
  connected st = true ->
  exists p t, pool (self st) = Some p /\ closed p = false
              /\ relation (database (world st)) = Some t /\ legal t = true.
Proof.
  unfold connected, open_pool, table_of. intros H.
  destruct (pool (self st)) as [p|]; [|discriminate].
  destruct (relation (database (world st))) as [t|];
    [|rewrite andb_false_r in H; discriminate].
  apply andb_true_iff in H as [Hc Hl].
  exists p, t. repeat split; auto. now destruct (closed p).
Qed.

Lemma legal_inv t :
  legal t = true ->
  unique_ids (rows t) = true
  /\ Forall (fun r => 1 <= Row.id r < id_seq t) (rows t)
  /\ 1 <= id_seq t <= int4_max + 1.
Proof.
  unfold legal. rewrite !andb_true_iff. intros [[[[_ Hu] Hi] H1] H2].
  repeat split; auto; try lia.
  apply Forall_forall. intros r Hr. apply list_elem_of_In in Hr.
  rewrite forallb_forall in Hi. specialize (Hi r Hr). lia.
Qed.

Lemma table_eta_current t :
  lacks t = [] -> mkTable (rows t) (id_seq t) [] = t.
Proof. destruct t as [rs seq lk]. simpl. now intros ->. Qed.

Lemma legal_current t : legal t = true -> lacks t = [].
Proof.
  unfold legal. rewrite !andb_true_iff. intros [[[[H _] _] _] _].
  now destruct (lacks t).
Qed.

Lemma legal_intro rs seq :
  unique_ids rs = true ->
  Forall (fun r => 1 <= Row.id r < seq) rs ->
  1 <= seq <= int4_max + 1 ->
  legal (mkTable rs seq []) = true.
Proof.
  intros Hu Hi Hs. unfold legal. simpl. rewrite !andb_true_iff.
  repeat split; auto; try lia.
  apply forallb_forall. intros r Hr. apply list_elem_of_In in Hr.
  rewrite Forall_forall in Hi. specialize (Hi r Hr). lia.
Qed.

(** A statement that keeps every [id] keeps the table legal. *)
Lemma legal_same_ids t rs :
  legal t = true -> map Row.id rs = map Row.id (rows t) ->
  legal (mkTable rs (id_seq t) (lacks t)) = true.
Proof.
  intros Hl Hids. rewrite (legal_current t Hl).
  apply legal_inv in Hl as (Hu & Hi & Hs).
  apply legal_intro; auto.
  - now rewrite (unique_ids_ids _ _ Hids).
  - apply Forall_forall. intros r Hr. apply list_elem_of_In in Hr.
    assert (Hin : In (Row.id r) (map Row.id (rows t))).
    { rewrite <- Hids. now apply in_map. }
    apply in_map_iff in Hin as (r0 & Heq & Hr0). apply list_elem_of_In in Hr0.
    rewrite Forall_forall in Hi. specialize (Hi r0 Hr0). lia.
Qed.

(** With an open pool each write method is one call on a connection. *)
Section OpenPool.
Variable st : State.
Variable p : Pool.
Hypothesis has_pool : pool (self st) = Some p.
Hypothesis is_open : closed p = false.

Ltac open_method :=
  unfold one_call; run_method; simpl; rewrite has_pool; simpl;
  rewrite is_open; simpl;
  match goal with
  | |- context [execute ?q ?a ?n ?d] => destruct (execute q a n d) as [[?|?] ?]
  end; reflexivity.

Lemma increment_account_usage_open i :
  increment_account_usage i st
  = one_call (Update [("last_used_at", NOW); ("request_count", RequestCountPlusOne)] 1)
             [PInt i] st.
Proof. open_method. Qed.

Lemma update_account_usage_open i :
  update_account_usage i st = one_call (Update [("last_used_at", NOW)] 1) [PInt i] st.
Proof. open_method. Qed.

Lemma add_account_open a b c d e :
  add_account a b c d e st = one_call InsertAccount [a; b; c; d; e] st.
Proof. open_method. Qed.

Lemma delete_account_open i :
  delete_account i st = one_call DeleteById [PInt i] st.
Proof. open_method. Qed.

Lemma fetch_active_accounts_open :
  fetch_active_accounts st
  = ((execute SelectActive [] (clock (world st)) (database (world st))).1,
     with_database (execute SelectActive [] (clock (world st)) (database (world st))).2 st).
Proof.
  run_method. simpl. rewrite has_pool. simpl. rewrite is_open. simpl.
  now destruct (execute _ _ _ _).
Qed.

Lemma get_all_accounts_open :
  get_all_accounts st
  = ((execute SelectAll [] (clock (world st)) (database (world st))).1,
     with_database (execute SelectAll [] (clock (world st)) (database (world st))).2 st).
Proof.
  run_method. simpl. rewrite has_pool. simpl. rewrite is_open. simpl.
  now destruct (execute _ _ _ _).
Qed.
End OpenPool.

(** ** The usage statements *)

Lemma run_touch i now rs :
  unique_ids rs = true -> in_int4 i = true ->
  run_update [("last_used_at", NOW)] 1 [PInt i] now rs
  = Return (map (on_id i (touched now)) rs).
Proof.
  intros Hu Hi. unfold run_update. simpl. rewrite Hi. simpl.
  unfold update_rows.
  rewrite (mapM_Return_map _ (on_id i (touched now))).
  - simpl. unfold check_primary_key.
    rewrite unique_ids_map, Hu; [reflexivity|].
    intros r. now apply on_id_id.
  - intros r _. unfold on_id, id_matches.
    destruct (Row.id r =? i); [|reflexivity]. now destruct r.
Qed.

Lemma run_increment i now rs :
  unique_ids rs = true -> in_int4 i = true ->
  (forall r, r ∈ rs -> Row.id r = i -> can_count 1 r = true) ->
  run_update [("last_used_at", NOW); ("request_count", RequestCountPlusOne)] 1
             [PInt i] now rs
  = Return (map (on_id i (used 1 now)) rs).
Proof.
  intros Hu Hi Hc. unfold run_update. simpl. rewrite Hi. simpl.
  unfold update_rows.
  rewrite (mapM_Return_map _ (on_id i (used 1 now))).
  - simpl. unfold check_primary_key.
    rewrite unique_ids_map, Hu; [reflexivity|].
    intros r. now apply on_id_id.
  - intros r Hr. unfold on_id, id_matches.
    destruct (Z.eqb_spec (Row.id r) i) as [Heq|]; [|reflexivity].
    specialize (Hc r Hr Heq). unfold can_count in Hc.
    destruct r as [ri rn rs' rh rx rg ra [q|] rl rt]; simpl in *; [|discriminate].
    now rewrite Hc.
Qed.

Lemma run_update_out_of_range cls i now rs :
  in_int4 i = false ->
  forall rs', run_update cls 1 [PInt i] now rs <> Return rs'.
Proof.
  intros Hi rs'. unfold run_update.
  destruct (mapM resolve cls); simpl; [|discriminate].
  destruct (mapM (bind_clause [PInt i]) a); simpl; [|discriminate].
  rewrite Hi. discriminate.
Qed.

(** ** One [UPDATE] on an existing table *)

(** On a table that has every column no statement is refused for its
    columns. *)
Lemma checked_current {A} t q (o : outcome A) :
  lacks t = [] ->
  andThen (check_columns (lacks t) (mentioned q)) (fun _ => o) = o.
Proof. intros H. now rewrite H, check_columns_nil. Qed.

Section OneUpdate.
Variable st : State.
Variable t : Table.
Hypothesis has_table : relation (database (world st)) = Some t.
Variables (cls : list (string * expr)) (w : nat) (args : list pyval).

Let result :=
  andThen (check_columns (lacks t) (mentioned (Update cls w)))
          (fun _ => run_update cls w args (clock (world st)) (rows t)).
Let after := (one_call (Update cls w) args st).2.

Lemma any_update_outcome :
  (one_call (Update cls w) args st).1 = andThen result (fun _ => Return tt).
Proof.
  unfold one_call, execute, result. simpl. rewrite has_table.
  destruct (check_columns _ _); simpl; [|reflexivity].
  now destruct (run_update _ _ _ _ _).
Qed.

Lemma any_update_table :
  table_of after
  = Some (mkTable (match result with Return rs => rs | Raise _ => rows t end)
                  (id_seq t) (lacks t)).
Proof.
  unfold after, one_call, execute, result, table_of. simpl. rewrite has_table.
  destruct (check_columns _ _); simpl.
  - destruct (run_update _ _ _ _ _); simpl; [reflexivity|].
    rewrite has_table. now destruct t.
  - rewrite has_table. now destruct t.
Qed.

Lemma any_update_rows :
  rows_of after = match result with Return rs => rs | Raise _ => rows t end.
Proof. unfold rows_of. now rewrite any_update_table. Qed.

Lemma one_update_calls :
  calls_of after = calls_of st ++ [(Update cls w, args)].
Proof.
  unfold after, one_call, execute, calls_of. simpl. rewrite has_table.
  destruct (check_columns _ _); simpl; [|reflexivity].
  now destruct (run_update _ _ _ _ _).
Qed.
End OneUpdate.

(** The same on a table that has every column. *)
Section OneUpdateCurrent.
Variable st : State.
Variable t : Table.
Hypothesis has_table : relation (database (world st)) = Some t.
Hypothesis is_current : lacks t = [].
Variables (cls : list (string * expr)) (w : nat) (args : list pyval).

Let result := run_update cls w args (clock (world st)) (rows t).
Let after := (one_call (Update cls w) args st).2.

Lemma one_update_outcome :
  (one_call (Update cls w) args st).1 = andThen result (fun _ => Return tt).
Proof.
  rewrite (any_update_outcome st t has_table).
  now rewrite (checked_current t _ _ is_current).
Qed.

Lemma one_update_table :
  table_of after
  = Some (mkTable (match result with Return rs => rs | Raise _ => rows t end)
                  (id_seq t) (lacks t)).
Proof.
  unfold after. rewrite (any_update_table st t has_table).
  now rewrite (checked_current t _ _ is_current).
Qed.

Lemma one_update_rows :
  rows_of after = match result with Return rs => rs | Raise _ => rows t end.
Proof. unfold rows_of. now rewrite one_update_table. Qed.
End OneUpdateCurrent.

Lemma legal_ids_in_range t i :
  legal t = true -> in_int4 i = false -> Forall (fun r => Row.id r <> i) (rows t).
Proof.
  intros Hl Hi. apply legal_inv in Hl as (_ & Hids & Hs).
  eapply Forall_impl; [exact Hids|]. simpl. intros r Hr Heq. subst i.
  unfold in_int4, int4_min, int4_max in *. lia.
Qed.

Lemma connected_after st st' t :
  connected st = true -> self st' = self st ->
  table_of st' = Some t -> legal t = true -> connected st' = true.
Proof.
  unfold connected, open_pool. intros H Hs Ht Hl.
  rewrite Hs, Ht, Hl. apply andb_true_iff in H as [-> _]. reflexivity.
Qed.

(** C7. On a connected store [update_account_usage] sets [last_used_at] of
    the row with the given [id] to the server's time and changes nothing
    else: every other row and every other column, [request_count] included,
    stay as they were. *)
Theorem update_account_usage_only_touches (st : State) (i : Z) :
  connected st = true ->
  let now := clock (world st) in
  let st' := (update_account_usage i st).2 in
  rows_of st' = map (on_id i (touched now)) (rows_of st) /\
  map Row.request_count (rows_of st') = map Row.request_count (rows_of st) /\
  (in_int4 i = true -> (update_account_usage i st).1 = Return tt) /\
  connected st' = true.
Proof.
  intros Hc now st'.
  destruct (connected_inv st Hc) as (p & t & Hp & Ho & Ht & Hl).
  assert (Hu : unique_ids (rows t) = true) by (now apply legal_inv in Hl).
  assert (Hrows : rows_of st' = map (on_id i (touched now)) (rows_of st)).
  { subst st'. rewrite (update_account_usage_open st p Hp Ho).
    rewrite (one_update_rows st t Ht (legal_current t Hl)). unfold rows_of, table_of. rewrite Ht.
    destruct (in_int4 i) eqn:Hi.
    - now rewrite run_touch.
    - rewrite on_id_no_match by (now apply legal_ids_in_range).
      destruct (run_update _ _ _ _ _) as [rs|] eqn:Hr; [|reflexivity].
      now apply run_update_out_of_range in Hr. }
  assert (Hids : map Row.id (rows_of st') = map Row.id (rows_of st)).
  { rewrite Hrows, map_map. apply map_ext. intros r. now apply on_id_id. }
  repeat split.
  - exact Hrows.
  - rewrite Hrows, map_map. apply map_ext. intros r. unfold on_id.
    now destruct (Row.id r =? i).
  - intros Hi. rewrite (update_account_usage_open st p Hp Ho).
    rewrite (one_update_outcome st t Ht (legal_current t Hl)). now rewrite run_touch.
  - assert (Htab : table_of st' = Some (mkTable (rows_of st') (id_seq t) (lacks t))).
    { subst st'. rewrite (update_account_usage_open st p Hp Ho).
      unfold rows_of. now rewrite (one_update_table st t Ht (legal_current t Hl)). }
    assert (Hself : self st' = self st).
    { subst st'. now rewrite (update_account_usage_open st p Hp Ho). }
    apply (connected_after st st' _ Hc Hself Htab).
    apply (legal_same_ids t); [exact Hl|].
    rewrite Hids. unfold rows_of, table_of. now rewrite Ht.
Qed.

Lemma update_account_usage_only_touches_witness :
  let st := store_with [sample_row 1 (Some 5); sample_row 2 (Some 7)] 3 in
  rows_of (update_account_usage 2 st).2
  = [sample_row 1 (Some 5); touched 1000 (sample_row 2 (Some 7))].
Proof.
  intros st.
  pose proof (update_account_usage_only_touches st 2 eq_refl) as H.
  cbv zeta in H. destruct H as [H _]. rewrite H. reflexivity.
Defined.

(** ** Counting a request *)

Lemma used_twice i now later r :
  on_id i (used 1 later) (on_id i (used 1 now) r) = on_id i (used 2 later) r.
Proof.
  unfold on_id. destruct (Row.id r =? i) eqn:Hi; [|now rewrite Hi].
  unfold used at 2. simpl. rewrite Hi. unfold used. simpl. f_equal.
  destruct (Row.request_count r); simpl; f_equal. lia.
Qed.

Lemma can_count_at_spec n i st :
  can_count_at n i st = true ->
  forall r, r ∈ rows_of st -> Row.id r = i -> can_count n r = true.
Proof.
  unfold can_count_at. rewrite forallb_forall. intros H r Hr Hi.
  apply list_elem_of_In in Hr. specialize (H r Hr).
  apply Z.eqb_eq in Hi. now rewrite Hi in H.
Qed.

Lemma increment_once st i :
  connected st = true ->
  in_int4 i = true ->
  (forall r, r ∈ rows_of st -> Row.id r = i -> can_count 1 r = true) ->
  (increment_account_usage i st).1 = Return tt /\
  rows_of (increment_account_usage i st).2
  = map (on_id i (used 1 (clock (world st)))) (rows_of st) /\
  connected (increment_account_usage i st).2 = true.
Proof.
  intros Hc Hi Hq.
  destruct (connected_inv st Hc) as (p & t & Hp & Ho & Ht & Hl).
  assert (Hu : unique_ids (rows t) = true) by (now apply legal_inv in Hl).
  assert (Hrs : rows_of st = rows t) by (unfold rows_of, table_of; now rewrite Ht).
  rewrite Hrs in Hq.
  rewrite (increment_account_usage_open st p Hp Ho).
  pose proof (run_increment i (clock (world st)) (rows t) Hu Hi Hq) as Hrun.
  repeat split.
  - rewrite (one_update_outcome st t Ht (legal_current t Hl)). now rewrite Hrun.
  - rewrite (one_update_rows st t Ht (legal_current t Hl)). now rewrite Hrun, Hrs.
  - eapply (connected_after st (one_call _ _ st).2 _ Hc eq_refl).
    + apply (one_update_table st t Ht (legal_current t Hl)).
    + rewrite Hrun. apply (legal_same_ids t _ Hl). simpl.
      rewrite map_map. apply map_ext. intros r. now apply on_id_id.
Qed.

(** C4, as the code has it.  On a connected store, for an [id] in the range
    of the column and a matching row whose counter holds a number below the
    largest [BIGINT], [increment_account_usage] returns, adds exactly 1 to
    that row's [request_count] and sets its [last_used_at] to the server's
    time, leaving every other row and column alone; when no row matches
    nothing changes; and a second call (while the counter can still grow)
    makes the total increase 2. *)
Theorem increment_account_usage_adds_one (st : State) (i : Z) :
  connected st = true ->
  in_int4 i = true ->
  can_count_at 1 i st = true ->
  let st' := (increment_account_usage i st).2 in
  (increment_account_usage i st).1 = Return tt /\
  rows_of st' = map (on_id i (used 1 (clock (world st)))) (rows_of st) /\
  (Forall (fun r => Row.id r <> i) (rows_of st) -> rows_of st' = rows_of st) /\
  (forall later,
     can_count_at 2 i st = true ->
     (increment_account_usage i (at_time later st')).1 = Return tt /\
     rows_of (increment_account_usage i (at_time later st')).2
     = map (on_id i (used 2 later)) (rows_of st)).
Proof.
  intros Hc Hi Hq st'. pose proof (can_count_at_spec _ _ _ Hq) as Hq'.
  clear Hq; rename Hq' into Hq.
  destruct (increment_once st i Hc Hi Hq) as (Hret & Hrows & Hc').
  fold st' in Hrows, Hc'.
  repeat split; try assumption.
  - intros Hno. rewrite Hrows. now apply on_id_no_match.
  - pose proof (can_count_at_spec _ _ _ H) as H2; clear H; rename H2 into H.
    apply (increment_once (at_time later st') i Hc' Hi).
    change (rows_of (at_time later st')) with (rows_of st'). rewrite Hrows.
    intros r Hr Hid. apply list_elem_of_fmap in Hr as (r0 & -> & Hr0).
    rewrite on_id_id in Hid by reflexivity.
    specialize (H r0 Hr0 Hid). unfold on_id. rewrite Hid, Z.eqb_refl.
    unfold can_count in *. simpl.
    destruct (Row.request_count r0); simpl; [|discriminate].
    apply Z.leb_le in H. apply Z.leb_le. lia.
  - pose proof (can_count_at_spec _ _ _ H) as H2; clear H; rename H2 into H.
    destruct (increment_once (at_time later st') i Hc' Hi) as (_ & Hrows2 & _).
    + change (rows_of (at_time later st')) with (rows_of st'). rewrite Hrows.
      intros r Hr Hid. apply list_elem_of_fmap in Hr as (r0 & -> & Hr0).
      rewrite on_id_id in Hid by reflexivity.
      specialize (H r0 Hr0 Hid). unfold on_id. rewrite Hid, Z.eqb_refl.
      unfold can_count in *. simpl.
      destruct (Row.request_count r0); simpl; [|discriminate].
      apply Z.leb_le in H. apply Z.leb_le. lia.
    + rewrite Hrows2.
      change (rows_of (at_time later st')) with (rows_of st').
      change (clock (world (at_time later st'))) with later.
      rewrite Hrows, map_map. apply map_ext. intros r. apply used_twice.
Qed.

Lemma increment_account_usage_adds_one_witness :
  let st := store_with [sample_row 1 (Some 5); sample_row 2 (Some 7)] 3 in
  rows_of (increment_account_usage 2 st).2
  = [sample_row 1 (Some 5); used 1 1000 (sample_row 2 (Some 7))].
Proof.
  intros st.
  pose proof (increment_account_usage_adds_one st 2 eq_refl eq_refl eq_refl) as H.
  cbv zeta in H. destruct H as (_ & H & _). rewrite H. reflexivity.
Defined.

(** C4 as stated fails at the edges of the column types: a counter that has
    reached the largest [BIGINT] is not increased (the statement fails and
    the error propagates); an [id] beyond the [INTEGER] range makes the call
    raise although no row matches; and a counter that holds NULL stays
    NULL. *)
Lemma increment_fails_at_type_limits :
  let st := store_with [sample_row 1 (Some int8_max)] 2 in
  let st0 := store_with [sample_row 1 None] 2 in
  (connected st = true /\
   (increment_account_usage 1 st).1 = Raise NumericValueOutOfRangeError /\
   rows_of (increment_account_usage 1 st).2 = rows_of st) /\
  (Forall (fun r => Row.id r <> 2147483648) (rows_of st) /\
   (increment_account_usage 2147483648 st).1 = Raise DataError) /\
  (connected st0 = true /\
   map Row.request_count (rows_of (increment_account_usage 1 st0).2) = [None]).
Proof.
  intros st st0. repeat split.
  repeat constructor. vm_compute. discriminate.
Qed.

(** ** Reading the active accounts *)

#[local] Instance nulls_first_le_trans : Transitive nulls_first_le.
Proof. intros [x|] [y|] [z|]; simpl; try tauto; lia. Qed.

#[local] Instance nulls_first_le_total : Total nulls_first_le.
Proof. intros [x|] [y|]; simpl; try tauto; lia. Qed.

#[local] Instance by_last_used_at_trans : Transitive by_last_used_at.
Proof. intros a b c. unfold by_last_used_at. apply nulls_first_le_trans. Qed.

#[local] Instance by_last_used_at_total : Total by_last_used_at.
Proof. intros a b. unfold by_last_used_at. apply nulls_first_le_total. Qed.

Lemma active_spec r : active r = true <-> Row.is_active r = Some true.
Proof.
  unfold active. destruct (Row.is_active r) as [[|]|]; split; congruence.
Qed.

Lemma select_active_perm rs : select_active rs ≡ₚ List.filter active rs.
Proof. unfold select_active. apply merge_sort_Permutation. Qed.

Lemma select_active_elem rs r :
  r ∈ select_active rs <-> r ∈ rs /\ Row.is_active r = Some true.
Proof.
  rewrite select_active_perm, list_elem_of_In, filter_In, active_spec.
  now rewrite list_elem_of_In.
Qed.

Lemma select_active_sorted rs : StronglySorted by_last_used_at (select_active rs).
Proof. unfold select_active. apply StronglySorted_merge_sort; apply _. Qed.

(** C3. On a connected store [fetch_active_accounts] returns exactly the
    rows whose [is_active] is true (each as often as the table holds it, so
    none with a false flag), in ascending order of [last_used_at] with the
    rows that have no [last_used_at] ahead of all the others; the table is
    left as it was. *)
Theorem fetch_active_accounts_active_sorted (st : State) :
  connected st = true ->
  exists l,
    (fetch_active_accounts st).1 = Return l /\
    l ≡ₚ List.filter active (rows_of st) /\
    (forall r, r ∈ l <-> r ∈ rows_of st /\ Row.is_active r = Some true) /\
    StronglySorted by_last_used_at l /\
    (forall before r after,
        l = before ++ r :: after ->
        (Row.last_used_at r = None ->
         Forall (fun r' => Row.last_used_at r' = None) before) /\
        (forall t, Row.last_used_at r = Some t ->
         Forall (fun r' => exists t', Row.last_used_at r' = Some t' /\ t <= t')
                after)) /\
    rows_of (fetch_active_accounts st).2 = rows_of st.
Proof.
  intros Hc.
  destruct (connected_inv st Hc) as (p & t & Hp & Ho & Ht & Hl).
  exists (select_active (rows t)).
  assert (Hrs : rows_of st = rows t) by (unfold rows_of, table_of; now rewrite Ht).
  rewrite (fetch_active_accounts_open st p Hp Ho), Hrs.
  unfold execute. simpl. rewrite Ht, (legal_current t Hl), check_columns_nil.
  simpl.
  split; [reflexivity|].
  split; [apply select_active_perm|].
  split; [apply select_active_elem|].
  split; [apply select_active_sorted|].
  split.
  - intros before r after Hl'.
    pose proof (select_active_sorted (rows t)) as Hs. rewrite Hl' in Hs.
    split.
    + intros Hnone. apply Forall_forall. intros r' Hr'.
      assert (Hle : by_last_used_at r' r).
      { apply (StronglySorted_app_1_elem_of _ _ _ _ _ Hs Hr'). now left. }
      unfold by_last_used_at in Hle. rewrite Hnone in Hle.
      now destruct (Row.last_used_at r').
    + intros t0 Hsome. apply Forall_forall. intros r' Hr'.
      assert (Hle : by_last_used_at r r').
      { apply StronglySorted_app_1_r, StronglySorted_cons in Hs as [Hall _].
        rewrite Forall_forall in Hall. now apply Hall. }
      unfold by_last_used_at in Hle. rewrite Hsome in Hle.
      destruct (Row.last_used_at r') as [t'|]; [|contradiction].
      now exists t'.
  - unfold rows_of, table_of. simpl. now rewrite Ht.
Qed.

Lemma fetch_active_accounts_active_sorted_witness :
  exists l,
    (fetch_active_accounts
       (store_with [touched 7 (sample_row 1 None); sample_row 2 None] 3)).1
    = Return l /\ l = [sample_row 2 None; touched 7 (sample_row 1 None)].
Proof.
  destruct (fetch_active_accounts_active_sorted
              (store_with [touched 7 (sample_row 1 None); sample_row 2 None] 3)
              eq_refl) as (l & Hl & _).
  exists l. split; [exact Hl|].
  vm_compute in Hl. now injection Hl as <-.
Defined.

(** ** Inserting an account *)

Lemma unique_ids_snoc rs r :
  unique_ids rs = true -> Forall (fun r' => Row.id r' <> Row.id r) rs ->
  unique_ids (rs ++ [r]) = true.
Proof.
  induction rs as [|a rs IH]; simpl; intros Hu Hf; [reflexivity|].
  apply andb_true_iff in Hu as [Ha Hu].
  apply Forall_cons in Hf as [Hne Hf].
  rewrite IH by assumption. rewrite andb_true_r.
  rewrite existsb_app, negb_orb, Ha. simpl.
  destruct (Z.eqb_spec (Row.id r) (Row.id a)); [congruence|reflexivity].
Qed.

Lemma run_insert_accepted now rs seq name ses host idx cfg :
  valid_name name = true -> valid_text ses = true ->
  valid_optional_text host = true -> valid_text idx = true ->
  valid_text cfg = true ->
  seq <= int4_max ->
  unique_ids rs = true -> Forall (fun r => Row.id r < seq) rs ->
  run_insert [opt_str name; PStr ses; opt_str host; PStr idx; PStr cfg] now rs seq
  = (Return (rs ++ [inserted seq now name ses host idx cfg]), seq + 1).
Proof.
  intros Hn Hs Hh Hx Hg Hseq Hu Hids. unfold run_insert.
  assert (Hvals :
    andThen (bind_all [opt_str name; PStr ses; opt_str host; PStr idx; PStr cfg]
                      1 insert_types)
            (coerce_all insert_types)
    = Return [match name with Some s => VText s | None => VNull end; VText ses;
              match host with Some s => VText s | None => VNull end;
              VText idx; VText cfg]).
  { destruct name as [n|], host as [h|]; simpl in *;
      rewrite ?Hs, ?Hh, ?Hx, ?Hg; try reflexivity.
    - apply andb_true_iff in Hn as [Hv Hlen]. rewrite Hv.
      unfold coerce_varchar. now rewrite Hlen.
    - apply andb_true_iff in Hn as [Hv Hlen]. rewrite Hv.
      unfold coerce_varchar. now rewrite Hlen. }
  rewrite Hvals. apply Z.leb_le in Hseq. rewrite Hseq. f_equal.
  assert (Hnew : new_row seq now
            [match name with Some s => VText s | None => VNull end; VText ses;
             match host with Some s => VText s | None => VNull end;
             VText idx; VText cfg]
          = Return (inserted seq now name ses host idx cfg)).
  { now destruct name, host. }
  rewrite Hnew. simpl. unfold check_primary_key.
  rewrite unique_ids_snoc; [reflexivity|exact Hu|].
  eapply Forall_impl; [exact Hids|]. simpl. intros r Hr. lia.
Qed.

Lemma filter_none (i : Z) (rs : list Row.t) :
  Forall (fun r => Row.id r <> i) rs -> filter (fun r => Row.id r = i) rs = [].
Proof.
  induction 1 as [|r rs Hr _ IH]; [reflexivity|].
  now rewrite filter_cons_False.
Qed.

Lemma select_all_perm rs : select_all rs ≡ₚ rs.
Proof. unfold select_all. apply merge_sort_Permutation. Qed.

(** C6, as the code has it.  On a connected store whose sequence is not
    exhausted, [add_account] with arguments the columns accept (texts
    without a NUL character, a [name] of at most 255 characters) returns and
    appends exactly one row: the five values as given, [is_active] true,
    [request_count] 0, no [last_used_at], [created_at] the server's time and
    an [id] taken from the sequence that no other row has.  A following
    [get_all_accounts] returns the old rows and that row, which is the only
    one with its [id]. *)
Theorem add_account_inserts_one_row (st : State)
  (name : option string) (secure_c_ses : string) (host_c_oses : option string)
  (csesidx config_id : string) :
  connected st = true ->
  next_id st <= int4_max ->
  valid_name name = true ->
  valid_text secure_c_ses = true ->
  valid_optional_text host_c_oses = true ->
  valid_text csesidx = true ->
  valid_text config_id = true ->
  let call := add_account (opt_str name) (PStr secure_c_ses) (opt_str host_c_oses)
                          (PStr csesidx) (PStr config_id) in
  let new := inserted (next_id st) (clock (world st))
                      name secure_c_ses host_c_oses csesidx config_id in
  (call st).1 = Return tt /\
  rows_of (call st).2 = rows_of st ++ [new] /\
  Forall (fun r => Row.id r <> Row.id new) (rows_of st) /\
  next_id (call st).2 = next_id st + 1 /\
  connected (call st).2 = true /\
  exists l,
    (get_all_accounts (call st).2).1 = Return l /\
    l ≡ₚ rows_of st ++ [new] /\
    filter (fun r => Row.id r = Row.id new) l = [new].
Proof.
  intros Hc Hseq Hn Hs Hh Hx Hg call new.
  destruct (connected_inv st Hc) as (p & t & Hp & Ho & Ht & Hl).
  assert (Hrs : rows_of st = rows t) by (unfold rows_of, table_of; now rewrite Ht).
  assert (Hnext : next_id st = id_seq t) by (unfold next_id, table_of; now rewrite Ht).
  destruct (legal_inv t Hl) as (Hu & Hids & Hrange).
  assert (Hlt : Forall (fun r => Row.id r < id_seq t) (rows t)).
  { eapply Forall_impl; [exact Hids|]. simpl. intros; lia. }
  assert (Hfresh : Forall (fun r => Row.id r <> Row.id new) (rows t)).
  { eapply Forall_impl; [exact Hlt|]. subst new. simpl. intros; lia. }
  rewrite Hnext in Hseq.
  pose proof (run_insert_accepted (clock (world st)) (rows t) (id_seq t)
                name secure_c_ses host_c_oses csesidx config_id
                Hn Hs Hh Hx Hg Hseq Hu Hlt) as Hrun.
  assert (Hcall : call st =
    (Return tt,
     with_database
       (mkDatabase (Some (mkTable (rows t ++ [new]) (id_seq t + 1) []))
          (submitted (database (world st))
           ++ [(InsertAccount,
                [opt_str name; PStr secure_c_ses; opt_str host_c_oses;
                 PStr csesidx; PStr config_id])]))
       st)).
  { subst call new. rewrite (add_account_open st p Hp Ho).
    unfold one_call, execute. simpl.
    rewrite Ht, (legal_current t Hl), check_columns_nil. rewrite Hrun. simpl.
    now rewrite Hnext. }
  assert (Hl' : legal (mkTable (rows t ++ [new]) (id_seq t + 1) []) = true).
  { apply legal_intro.
    - now apply unique_ids_snoc.
    - apply Forall_app. split.
      + eapply Forall_impl; [exact Hids|]. simpl. intros; lia.
      + constructor; [|constructor]. subst new. simpl. lia.
    - lia. }
  rewrite Hcall. simpl. rewrite Hrs.
  split; [reflexivity|].
  split; [reflexivity|].
  split; [exact Hfresh|].
  split; [rewrite Hnext; unfold next_id, table_of; simpl; lia|].
  split.
  { unfold connected, open_pool, table_of. simpl. rewrite Hp, Ho, Hl'. reflexivity. }
  exists (select_all (rows t ++ [new])).
  split.
  { rewrite (get_all_accounts_open (with_database _ st) p Hp Ho).
    unfold execute. reflexivity. }
  split; [apply select_all_perm|].
  apply Permutation_singleton_r.
  rewrite select_all_perm, filter_app.
  rewrite (filter_none _ (rows t)) by exact Hfresh.
  simpl. rewrite filter_cons_True by reflexivity. reflexivity.
Qed.

Lemma add_account_inserts_one_row_witness :
  let st := store_with [] 1 in
  let st' := (add_account (PStr "acct1") (PStr "sc1") (PStr "") (PStr "idx1")
                          (PStr "cfg1") st).2 in
  let wide := add_account (PStr wide_name) (PStr "sc1") (PStr "") (PStr "idx1")
                          (PStr "cfg1") st in
  rows_of st' = [inserted 1 1000 (Some "acct1") "sc1" (Some "") "idx1" "cfg1"] /\
  (String.length wide_name = 258%nat /\ char_length wide_name = 86%nat) /\
  wide.1 = Return tt /\
  rows_of wide.2 = [inserted 1 1000 (Some wide_name) "sc1" (Some "") "idx1" "cfg1"].
Proof.
  intros st st' wide.
  assert (Hseq : next_id st <= int4_max) by (vm_compute; discriminate).
  pose proof (add_account_inserts_one_row st (Some "acct1") "sc1" (Some "")
                "idx1" "cfg1" eq_refl Hseq eq_refl eq_refl eq_refl eq_refl eq_refl)
    as H.
  assert (Hw : valid_name (Some wide_name) = true) by (vm_compute; reflexivity).
  pose proof (add_account_inserts_one_row st (Some wide_name) "sc1" (Some "")
                "idx1" "cfg1" eq_refl Hseq Hw eq_refl eq_refl eq_refl eq_refl)
    as H'.
  cbv zeta in H, H'. destruct H as (_ & H & _). destruct H' as (Hret & Hrows & _).
  split; [exact H|].
  split; [split; vm_compute; reflexivity|].
  split; [exact Hret|exact Hrows].
Defined.

(** C6 as stated fails for arguments the table does not take: a [name] of
    256 characters, a text with a NUL character, or a sequence that has
    handed out its last value make the insert fail; the error propagates and
    a following [get_all_accounts] shows no new row. *)
Lemma add_account_rejects_long_name :
  let st := store_with [] 1 in
  let long := add_account (PStr long_name) (PStr "sc1") (PStr "") (PStr "idx1")
                          (PStr "cfg1") in
  let nul := add_account (PStr "acct1") (PStr nul_text) (PStr "") (PStr "idx1")
                         (PStr "cfg1") in
  let full := store_with [] (int4_max + 1) in
  let last := add_account (PStr "acct1") (PStr "sc1") (PStr "") (PStr "idx1")
                          (PStr "cfg1") in
  (connected st = true /\
   char_length long_name = 256%nat /\
   (long st).1 = Raise StringDataRightTruncationError /\
   rows_of (long st).2 = [] /\
   (get_all_accounts (long st).2).1 = Return []) /\
  ((nul st).1 = Raise CharacterNotInRepertoireError /\ rows_of (nul st).2 = []) /\
  (connected full = true /\
   (last full).1 = Raise SequenceLimitError /\ rows_of (last full).2 = []).
Proof.
  intros st long nul full last. repeat split.
Qed.

(** ** The loop of [update_account] *)

(** The loop invariant: clauses, values and the next placeholder number after
    the keys [keys] have been visited. *)
Lemma collect_loop data keys cl vals idx :
  fold_left (collect data) keys (cl, vals, idx)
  = (cl ++ number idx (supplied data keys),
     vals ++ (supplied data keys).*2,
     (idx + length (supplied data keys))%nat).
Proof.
  revert cl vals idx. induction keys as [|k keys IH]; intros cl vals idx; simpl.
  - now rewrite !app_nil_r, Nat.add_0_r.
  - unfold supplied. simpl. fold (supplied data keys).
    destruct (data !! k) as [v|] eqn:Hk; simpl.
    + rewrite IH. rewrite <- !app_assoc. simpl. do 2 f_equal. lia.
    + apply IH.
Qed.

Lemma update_account_open st p i data :
  pool (self st) = Some p -> closed p = false ->
  update_account i data st =
  match supplied data mutable_keys with
  | [] => (Return tt, st)
  | sup => one_call (Update (number 1 sup) (S (length sup)))
                    (sup.*2 ++ [PInt i]) st
  end.
Proof.
  intros Hp Ho. unfold update_account.
  rewrite (collect_loop data mutable_keys [] [] 1).
  cbv beta iota zeta delta [mbind M_bind get_self]. rewrite Hp.
  change ([] ++ ?l) with l.
  destruct (supplied data mutable_keys) as [|[k v] sup] eqn:Hsup.
  - reflexivity.
  - cbn [number fmap list_fmap length Nat.add snd].
    unfold one_call. run_method. rewrite Ho.
    match goal with
    | |- context [execute ?q ?a ?n ?d] => destruct (execute q a n d) as [[?|?] ?]
    end; reflexivity.
Qed.

(** ** Binding the values to the placeholders *)

Lemma andThen_assoc {A B C} (o : outcome A) (f : A -> outcome B) (g : B -> outcome C) :
  andThen (andThen o f) g = andThen o (fun a => andThen (f a) g).
Proof. now destruct o. Qed.

Lemma resolve_number n sup :
  Forall (fun kv => is_Some (column_of kv.1)) sup ->
  exists l, mapM resolve (number n sup) = Return l.
Proof.
  revert n. induction sup as [|[k v] sup IH]; intros n H; simpl.
  - now exists [].
  - apply Forall_cons in H as [[c Hc] H]. simpl in Hc.
    destruct (IH (S n) H) as [l Hl]. rewrite Hl.
    unfold resolve. simpl. rewrite Hc. simpl. eauto.
Qed.

(** Placeholder [$(idx + j)] of the generated statement receives the value
    of the [j]-th supplied key: resolving and binding the numbered clauses
    against the argument list is binding each value to its own column. *)
Lemma bind_numbered n (sup : list (string * pyval)) pre post :
  n = S (length pre) ->
  Forall (fun kv => is_Some (column_of kv.1)) sup ->
  andThen (mapM resolve (number n sup))
          (mapM (bind_clause (pre ++ sup.*2 ++ post)))
  = mapM bind_value sup.
Proof.
  revert n pre. induction sup as [|[k v] sup IH]; intros n pre Hn H.
  - reflexivity.
  - apply Forall_cons in H as [[c Hc] H]. simpl in Hc.
    specialize (IH (S n) (pre ++ [v]) ltac:(rewrite length_app; simpl; lia) H).
    rewrite <- app_assoc in IH. simpl in IH.
    destruct (resolve_number (S n) sup H) as [l Hl].
    simpl. unfold resolve at 1. simpl. rewrite Hc. simpl.
    unfold bind_value at 1. simpl. rewrite Hc.
    rewrite <- IH, Hl. simpl.
    unfold bind_clause at 1. simpl. subst n. simpl.
    rewrite lookup_app_r by lia. rewrite Nat.sub_diag. simpl.
    now destruct (encode (column_type c) v).
Qed.

Lemma bind_where (sup : list (string * pyval)) i :
  bind_param (sup.*2 ++ [PInt i]) (S (length sup)) TInt4
  = if in_int4 i then Return (VInt i) else Raise DataError.
Proof.
  unfold bind_param. rewrite lookup_app_r by (rewrite length_fmap; lia).
  rewrite length_fmap, Nat.sub_diag. simpl. now destruct (in_int4 i).
Qed.

(** The statement [update_account] generates, in terms of the supplied
    values. *)
Lemma run_update_supplied (sup : list (string * pyval)) i now rs :
  Forall (fun kv => is_Some (column_of kv.1)) sup ->
  run_update (number 1 sup) (S (length sup)) (sup.*2 ++ [PInt i]) now rs
  = andThen (mapM bind_value sup) (fun bound =>
    andThen (if in_int4 i then Return (VInt i) else Raise DataError) (fun w =>
    andThen (mapM plan_clause bound) (fun planned =>
    andThen (update_rows now planned w rs) check_primary_key))).
Proof.
  intros H. unfold run_update.
  rewrite <- (bind_numbered 1 sup [] [PInt i] eq_refl H).
  change ([] ++ sup.*2 ++ [PInt i]) with (sup.*2 ++ [PInt i]).
  destruct (mapM resolve (number 1 sup)) as [resolved|e]; cbn [andThen];
    [|reflexivity].
  destruct (mapM (bind_clause _) resolved); cbn [andThen]; [|reflexivity].
  now rewrite bind_where.
Qed.

(** ** Keys and columns *)

Lemma column_of_key_of c : column_of (key_of c) = Some c.
Proof. now destruct c. Qed.

Lemma key_of_column_of k c : column_of k = Some c -> key_of c = k.
Proof.
  unfold column_of.
  repeat match goal with
         | |- context [String.eqb k ?s] =>
             destruct (String.eqb_spec k s) as [->|_];
             [intros [= <-]; reflexivity|]
         end.
  discriminate.
Qed.

Lemma mutable_key k :
  k ∈ mutable_keys -> exists c, column_of k = Some c /\ mutable c = true.
Proof.
  unfold mutable_keys. intros H.
  repeat (apply elem_of_cons in H as [-> | H]; [eexists; split; reflexivity|]).
  now apply elem_of_nil in H.
Qed.

Lemma mutable_key_of c : mutable c = true -> key_of c ∈ mutable_keys.
Proof.
  unfold mutable_keys. destruct c; simpl; try discriminate; intros _;
    repeat first [ apply list_elem_of_here | apply list_elem_of_further ].
Qed.

Lemma NoDup_mutable_keys : NoDup mutable_keys.
Proof.
  unfold mutable_keys.
  repeat (apply NoDup_cons; split;
          [rewrite ?elem_of_cons, elem_of_nil; intros H;
           repeat (destruct H as [H|H]; [discriminate|]); exact H|]).
  apply NoDup_nil_2.
Qed.

(** ** The supplied keys *)

Lemma supplied_elem data keys k v :
  (k, v) ∈ supplied data keys <-> k ∈ keys /\ data !! k = Some v.
Proof.
  unfold supplied. rewrite list_elem_of_omap. split.
  - intros (k' & Hk' & Heq). destruct (data !! k') as [v'|] eqn:Hd; simpl in Heq;
      [|discriminate].
    injection Heq as <- <-. auto.
  - intros [Hk Hd]. exists k. rewrite Hd. auto.
Qed.

Lemma supplied_keys_sublist data keys : (supplied data keys).*1 `sublist_of` keys.
Proof.
  induction keys as [|k keys IH]; [constructor|].
  unfold supplied. simpl. fold (supplied data keys).
  destruct (data !! k); simpl.
  - now apply sublist_skip.
  - now apply sublist_cons.
Qed.

Lemma NoDup_supplied data : NoDup (supplied data mutable_keys).*1.
Proof.
  eapply sublist_NoDup; [apply NoDup_mutable_keys|apply supplied_keys_sublist].
Qed.

Lemma supplied_resolve data :
  Forall (fun kv => is_Some (column_of kv.1)) (supplied data mutable_keys).
Proof.
  apply Forall_forall. intros [k v] H. apply supplied_elem in H as [Hk _].
  destruct (mutable_key k Hk) as (c & Hc & _). simpl. now exists c.
Qed.

Lemma supplied_nil data c :
  supplied data mutable_keys = [] -> mutable c = true -> data !! key_of c = None.
Proof.
  intros Hs Hm. destruct (data !! key_of c) as [v|] eqn:Hd; [|reflexivity].
  assert (H : (key_of c, v) ∈ supplied data mutable_keys).
  { apply supplied_elem. split; [now apply mutable_key_of|exact Hd]. }
  rewrite Hs in H. now apply elem_of_nil in H.
Qed.

(** ** Assigning to a column *)

Lemma assign_read c y r r' :
  assign c y r = Return r' -> fits (column_type c) y = true -> read c r' = y.
Proof.
  destruct r as [ri rn rs rh rx rg ra rq rl rt].
  destruct c, y; simpl; try discriminate; intros [= <-]; reflexivity.
Qed.

Lemma assign_other c c' y r r' :
  assign c y r = Return r' -> c' <> c -> read c' r' = read c' r.
Proof.
  destruct r as [ri rn rs rh rx rg ra rq rl rt]. intros H Hne.
  destruct c; simpl in H;
    try (destruct (as_int y); simpl in H; try discriminate);
    try (destruct (as_text y); simpl in H; try discriminate);
    injection H as <-; destruct c'; try reflexivity; congruence.
Qed.

Lemma encode_fits ty v x : encode ty v = Some x -> fits ty x = true.
Proof.
  destruct v, ty; simpl; try discriminate;
    try (intros [= <-]; reflexivity).
  - destruct (in_int4 n); [intros [= <-]; reflexivity|discriminate].
  - destruct (in_int8 n); [intros [= <-]; reflexivity|discriminate].
Qed.

Lemma coerce_fits ty x y : coerce ty x = Return y -> fits ty x = true -> fits ty y = true.
Proof.
  destruct x; simpl; try (intros [= <-]; auto; fail).
  destruct (valid_text s); [|discriminate].
  destruct ty; try (intros [= <-]; auto; fail).
  destruct (coerce_varchar n s); simpl; [|discriminate].
  intros [= <-]. auto.
Qed.

Lemma stored_fits c v y : stored c v = Some y -> fits (column_type c) y = true.
Proof.
  unfold stored. destruct (encode (column_type c) v) as [x|] eqn:He; [|discriminate].
  destruct (coerce (column_type c) x) as [y'|] eqn:Hc; [|discriminate].
  intros [= <-]. eapply coerce_fits; [exact Hc|]. eapply encode_fits. exact He.
Qed.

Lemma assign_all_other l r r' c :
  assign_all l r = Return r' -> c ∉ l.*1 -> read c r' = read c r.
Proof.
  revert r. induction l as [|[c0 y0] l IH]; intros r H Hc; simpl in H.
  - now injection H as <-.
  - destruct (assign c0 y0 r) as [r1|] eqn:H1; simpl in H; [|discriminate].
    simpl in Hc. apply not_elem_of_cons in Hc as [Hne Hc].
    rewrite (IH r1 H Hc). eapply assign_other; eauto.
Qed.

Lemma assign_all_read l r r' c y :
  assign_all l r = Return r' -> NoDup l.*1 ->
  Forall (fun cy => fits (column_type cy.1) cy.2 = true) l ->
  (c, y) ∈ l -> read c r' = y.
Proof.
  revert r. induction l as [|[c0 y0] l IH]; intros r H Hnd Hfit Hin; simpl in H.
  - now apply elem_of_nil in Hin.
  - destruct (assign c0 y0 r) as [r1|] eqn:H1; simpl in H; [|discriminate].
    simpl in Hnd. apply NoDup_cons in Hnd as [Hnotin Hnd].
    apply Forall_cons in Hfit as [Hf0 Hfit]. simpl in Hf0.
    apply elem_of_cons in Hin as [[= -> ->] | Hin].
    + rewrite (assign_all_other l r1 r' c0 H Hnotin).
      eapply assign_read; eauto.
    + eapply IH; eauto.
Qed.

Lemma update_row_bound now old l r :
  update_row now old (map to_bound l) r = assign_all l r.
Proof.
  revert r. induction l as [|[c y] l IH]; intros r; simpl; [reflexivity|].
  destruct (assign c y r); simpl; auto.
Qed.

(** ** Planning the supplied values *)

Lemma plan_supplied sup bound planned :
  mapM bind_value sup = Return bound ->
  mapM plan_clause bound = Return planned ->
  exists l, planned = map to_bound l /\ Forall2 placed sup l.
Proof.
  intros Hb Hp. apply mapM_Return_inv in Hb. apply mapM_Return_inv in Hp.
  revert planned Hp. induction Hb as [|[k v] co sup bound Hkv _ IH];
    intros planned Hp.
  - inversion Hp; subst. exists []. split; [reflexivity|constructor].
  - inversion Hp as [|? cp ? planned' Hco Hrest]; subst.
    destruct (IH planned' Hrest) as (l & -> & Hl).
    unfold bind_value in Hkv. simpl in Hkv.
    destruct (column_of k) as [c|] eqn:Hc; [|discriminate].
    destruct (encode (column_type c) v) as [x|] eqn:He; [|discriminate].
    injection Hkv as <-. unfold plan_clause in Hco. simpl in Hco.
    destruct (coerce (column_type c) x) as [y|] eqn:Hy; simpl in Hco; [|discriminate].
    injection Hco as <-. exists ((c, y) :: l). split; [reflexivity|].
    constructor; [|exact Hl]. split; [exact Hc|]. simpl.
    unfold stored. now rewrite He, Hy.
Qed.

Lemma plan_placed sup l :
  Forall2 placed sup l ->
  exists bound, mapM bind_value sup = Return bound
                /\ mapM plan_clause bound = Return (map to_bound l).
Proof.
  induction 1 as [|[k v] [c y] sup l [Hc Hs] _ (bound & Hb & Hp)].
  - exists []. split; reflexivity.
  - simpl in Hc, Hs. unfold stored in Hs.
    destruct (encode (column_type c) v) as [x|] eqn:He; [|discriminate].
    destruct (coerce (column_type c) x) as [y'|] eqn:Hy; [|discriminate].
    injection Hs as ->.
    exists ((c, Bound x) :: bound). split.
    + simpl. unfold bind_value at 1. simpl. rewrite Hc, He, Hb. reflexivity.
    + simpl. unfold plan_clause at 1. simpl. rewrite Hy, Hp. reflexivity.
Qed.

(** ** One row under the generated statement *)

Lemma placed_keys sup l : Forall2 placed sup l -> sup.*1 = key_of <$> l.*1.
Proof.
  induction 1 as [|[k v] [c y] sup l [Hc _] _ IH]; [reflexivity|].
  rewrite !fmap_cons. cbn [fst] in *. f_equal; [|exact IH].
  symmetry. now apply key_of_column_of.
Qed.

Lemma placed_fits sup l :
  Forall2 placed sup l -> Forall (fun cy => fits (column_type cy.1) cy.2 = true) l.
Proof.
  induction 1 as [|[k v] [c y] sup l [_ Hs] _ IH]; constructor; auto.
  simpl in *. eapply stored_fits; eauto.
Qed.

Lemma placed_NoDup data l :
  Forall2 placed (supplied data mutable_keys) l -> NoDup l.*1.
Proof.
  intros H. apply (NoDup_fmap_1 key_of).
  rewrite <- (placed_keys _ _ H). apply NoDup_supplied.
Qed.

Lemma assign_all_new_value data l r r' :
  Forall2 placed (supplied data mutable_keys) l ->
  assign_all l r = Return r' ->
  forall c, read c r' = new_value data c r.
Proof.
  intros Hpl Hr c. unfold new_value.
  destruct (mutable c) eqn:Hm;
    [destruct (data !! key_of c) as [v|] eqn:Hd|].
  - assert (Hin : (key_of c, v) ∈ supplied data mutable_keys).
    { apply supplied_elem. split; [now apply mutable_key_of|exact Hd]. }
    apply list_elem_of_lookup in Hin as [j Hj].
    destruct (Forall2_lookup_l _ _ _ _ _ Hpl Hj) as ([c' y] & Hj' & Hc' & Hy).
    simpl in Hc', Hy. rewrite column_of_key_of in Hc'. injection Hc' as <-.
    rewrite Hy. simpl.
    eapply assign_all_read; eauto.
    + eapply placed_NoDup; eauto.
    + eapply placed_fits; eauto.
    + eapply list_elem_of_lookup_2; eauto.
  - apply (assign_all_other l r r' c Hr). intros Hin.
    assert (Hk : key_of c ∈ (supplied data mutable_keys).*1).
    { rewrite (placed_keys _ _ Hpl). now apply list_elem_of_fmap_2. }
    apply list_elem_of_fmap in Hk as ([k v] & Hk & Hkv). simpl in Hk. subst k.
    apply supplied_elem in Hkv as [_ Hkv]. congruence.
  - apply (assign_all_other l r r' c Hr). intros Hin.
    assert (Hk : key_of c ∈ (supplied data mutable_keys).*1).
    { rewrite (placed_keys _ _ Hpl). now apply list_elem_of_fmap_2. }
    apply list_elem_of_fmap in Hk as ([k v] & Hk & Hkv). simpl in Hk. subst k.
    apply supplied_elem in Hkv as [Hkv _].
    destruct (mutable_key _ Hkv) as (c' & Hc' & Hm').
    rewrite column_of_key_of in Hc'. congruence.
Qed.

Lemma new_value_no_supplied data c r :
  supplied data mutable_keys = [] -> new_value data c r = read c r.
Proof.
  intros Hs. unfold new_value. destruct (mutable c) eqn:Hm; [|reflexivity].
  now rewrite (supplied_nil data c Hs Hm).
Qed.

Lemma update_rows_updated data i now rs rs' l :
  Forall2 placed (supplied data mutable_keys) l ->
  update_rows now (map to_bound l) (VInt i) rs = Return rs' ->
  Forall2 (updated data i) rs rs'.
Proof.
  intros Hpl H. unfold update_rows in H. apply mapM_Return_inv in H.
  eapply Forall2_impl; [exact H|]. simpl. intros r r' Hr. unfold updated.
  destruct (Row.id r =? i).
  - rewrite update_row_bound in Hr. eapply assign_all_new_value; eauto.
  - now injection Hr as <-.
Qed.

Lemma updated_id data i r r' : updated data i r r' -> Row.id r' = Row.id r.
Proof.
  unfold updated. destruct (Row.id r =? i); [|now intros ->].
  intros H. specialize (H Cid). unfold new_value in H. simpl in H. congruence.
Qed.

Lemma updated_ids data i rs rs' :
  Forall2 (updated data i) rs rs' -> map Row.id rs' = map Row.id rs.
Proof.
  induction 1 as [|r r' rs rs' Hr _ IH]; simpl; [reflexivity|].
  rewrite IH. f_equal. eapply updated_id; eauto.
Qed.

Lemma updated_refl data i rs :
  supplied data mutable_keys = [] -> Forall2 (updated data i) rs rs.
Proof.
  intros Hs. apply Forall_Forall2_diag, Forall_forall. intros r _.
  unfold updated. destruct (Row.id r =? i); [|reflexivity].
  intros c. now rewrite new_value_no_supplied.
Qed.

(** ** [update_account] on an open pool and an existing table *)

Lemma update_account_ext i data data' st :
  (forall k, k ∈ mutable_keys -> data' !! k = data !! k) ->
  update_account i data' st = update_account i data st.
Proof.
  intros H. unfold update_account.
  rewrite !(collect_loop _ mutable_keys [] [] 1).
  assert (Hs : supplied data' mutable_keys = supplied data mutable_keys).
  { unfold supplied. apply list_omap_ext, Forall_Forall2_diag, Forall_forall.
    intros k Hk. now rewrite (H k Hk). }
  now rewrite Hs.
Qed.

Section UpdateAccount.
Variable st : State.
Variable p : Pool.
Variable t : Table.
Hypothesis has_pool : pool (self st) = Some p.
Hypothesis is_open : closed p = false.
Hypothesis has_table : relation (database (world st)) = Some t.
Variable i : Z.
Variable data : gmap string pyval.

Let res := update_account i data st.

Lemma update_account_nothing_supplied :
  supplied data mutable_keys = [] -> res = (Return tt, st).
Proof.
  intros Hs. unfold res. rewrite (update_account_open st p i data has_pool is_open).
  now rewrite Hs.
Qed.

Lemma update_account_table :
  table_of res.2 = Some (mkTable (rows_of res.2) (id_seq t) (lacks t)) /\ self res.2 = self st.
Proof.
  unfold res. rewrite (update_account_open st p i data has_pool is_open).
  destruct (supplied data mutable_keys) as [|kv sup].
  - simpl. unfold rows_of, table_of. rewrite has_table. now destruct t.
  - unfold rows_of. now rewrite (any_update_table st t has_table).
Qed.

(** The statement succeeds and every matching row is updated column by
    column, or it fails and every row is as before. *)
Lemma update_account_effect :
  (res.1 = Return tt
   /\ (exists l, Forall2 placed (supplied data mutable_keys) l)
   /\ Forall2 (updated data i) (rows t) (rows_of res.2))
  \/ (exists e, res.1 = Raise e /\ rows_of res.2 = rows t).
Proof.
  unfold res. rewrite (update_account_open st p i data has_pool is_open).
  destruct (supplied data mutable_keys) as [|kv sup] eqn:Hsup.
  - left. split; [reflexivity|]. split; [exists []; constructor|].
    unfold rows_of, table_of. simpl. rewrite has_table. now apply updated_refl.
  - rewrite (any_update_outcome st t has_table), (any_update_rows st t has_table).
    destruct (check_columns _ _); cbn [andThen]; [|right; eauto].
    rewrite run_update_supplied by (rewrite <- Hsup; apply supplied_resolve).
    destruct (mapM bind_value (kv :: sup)) as [bound|e] eqn:Hb; cbn [andThen];
      [|right; eauto].
    destruct (in_int4 i); cbn [andThen]; [|right; eauto].
    destruct (mapM plan_clause bound) as [planned|e] eqn:Hpl; cbn [andThen];
      [|right; eauto].
    destruct (plan_supplied _ _ _ Hb Hpl) as (l & -> & Hl).
    destruct (update_rows _ _ _ _) as [rs'|e] eqn:Hup; cbn [andThen];
      [|right; eauto].
    unfold check_primary_key. destruct (unique_ids rs'); [|right; eauto].
    left. split; [reflexivity|]. split; [now exists l|].
    rewrite <- Hsup in Hl. eapply update_rows_updated; eauto.
Qed.
End UpdateAccount.

(** ** Values the columns accept *)

Lemma stored_accepted c v : accepts c v = true -> stored c v = Some (sql_of v).
Proof.
  unfold stored.
  destruct c, v; simpl; try discriminate; try reflexivity;
    try (intros ->; reflexivity).
  intros H. apply andb_true_iff in H as [-> Hlen]. simpl.
  unfold coerce_varchar. now rewrite Hlen.
Qed.

Lemma assign_accepted c v r :
  accepts c v = true -> exists r', assign c (sql_of v) r = Return r'.
Proof.
  destruct r as [ri rn rs rh rx rg ra rq rl rt].
  destruct c, v; simpl; try discriminate; intros _; eauto.
Qed.

Lemma acceptable_spec data :
  acceptable data = true ->
  forall c v, mutable c = true -> data !! key_of c = Some v -> accepts c v = true.
Proof.
  unfold acceptable, mutable_columns. intros H c v Hm Hd.
  rewrite forallb_forall in H.
  assert (Hin : In c [Cname; Csecure_c_ses; Chost_c_oses; Ccsesidx; Cconfig_id;
                      Cis_active]).
  { destruct c; simpl in *; try discriminate; tauto. }
  specialize (H c Hin). now rewrite Hd in H.
Qed.

Lemma patched_new_value data c r :
  acceptable data = true -> new_value data c r = patched data c r.
Proof.
  intros Ha. pose proof (acceptable_spec data Ha) as Ha'. clear Ha.
  rename Ha' into Ha. unfold new_value, patched.
  destruct (mutable c) eqn:Hm; [|reflexivity].
  destruct (data !! key_of c) as [v|] eqn:Hd; [|reflexivity].
  now rewrite (stored_accepted c v (Ha c v Hm Hd)).
Qed.

Lemma acceptable_placed data :
  acceptable data = true ->
  exists l, Forall2 placed (supplied data mutable_keys) l
            /\ forall r, exists r', assign_all l r = Return r'.
Proof.
  intros Ha. pose proof (acceptable_spec data Ha) as Ha'. clear Ha.
  rename Ha' into Ha.
  assert (H : Forall (fun kv => exists c, column_of kv.1 = Some c
                                        /\ accepts c kv.2 = true)
                     (supplied data mutable_keys)).
  { apply Forall_forall. intros [k v] Hkv. apply supplied_elem in Hkv as [Hk Hd].
    destruct (mutable_key k Hk) as (c & Hc & Hm). exists c. split; [exact Hc|].
    simpl. apply Ha; [exact Hm|]. now rewrite (key_of_column_of k c Hc). }
  induction H as [|[k v] sup (c & Hc & Hacc) _ (l & Hl & Hall)].
  - exists []. split; [constructor|]. intros r. now exists r.
  - simpl in Hc, Hacc. exists ((c, sql_of v) :: l). split.
    + constructor; [|exact Hl]. split; [exact Hc|]. now apply stored_accepted.
    + intros r. simpl.
      destruct (assign_accepted c v r Hacc) as [r1 ->]. simpl. apply Hall.
Qed.

Lemma mapM_returns {A B} (g : A -> outcome B) (l : list A) :
  (forall a, exists b, g a = Return b) -> exists l', mapM g l = Return l'.
Proof.
  intros H. induction l as [|a l [l' IH]]; simpl; [now exists []|].
  destruct (H a) as [b ->]. rewrite IH. simpl. eauto.
Qed.

Lemma update_account_accepted st p t i data :
  pool (self st) = Some p -> closed p = false ->
  relation (database (world st)) = Some t ->
  legal t = true -> in_int4 i = true -> acceptable data = true ->
  (update_account i data st).1 = Return tt.
Proof.
  intros Hp Ho Ht Hleg Hi Ha.
  assert (Hu : unique_ids (rows t) = true) by (now apply legal_inv in Hleg).
  rewrite (update_account_open st p i data Hp Ho).
  destruct (supplied data mutable_keys) as [|kv sup] eqn:Hsup; [reflexivity|].
  rewrite (one_update_outcome st t Ht (legal_current t Hleg)).
  rewrite run_update_supplied by (rewrite <- Hsup; apply supplied_resolve).
  destruct (acceptable_placed data Ha) as (l & Hl & Hall).
  rewrite Hsup in Hl. destruct (plan_placed _ _ Hl) as (bound & -> & Hplan).
  cbn [andThen]. rewrite Hi. cbn [andThen]. rewrite Hplan. cbn [andThen].
  destruct (mapM_returns
              (fun r => if id_matches (VInt i) r
                        then update_row (clock (world st)) r (map to_bound l) r
                        else Return r) (rows t)) as [rs' Hrs'].
  { intros r. destruct (id_matches (VInt i) r); [|eauto].
    rewrite update_row_bound. apply Hall. }
  unfold update_rows. rewrite Hrs'. cbn [andThen].
  rewrite <- Hsup in Hl.
  pose proof (update_rows_updated data i _ _ _ l Hl Hrs') as Hupd.
  unfold check_primary_key.
  rewrite (unique_ids_ids rs' (rows t)) by (eapply updated_ids; eauto).
  now rewrite Hu.
Qed.

Lemma placed_stored data l c v :
  Forall2 placed (supplied data mutable_keys) l ->
  mutable c = true -> data !! key_of c = Some v -> is_Some (stored c v).
Proof.
  intros Hpl Hm Hd.
  assert (Hin : (key_of c, v) ∈ supplied data mutable_keys).
  { apply supplied_elem. split; [now apply mutable_key_of|exact Hd]. }
  apply list_elem_of_lookup in Hin as [j Hj].
  destruct (Forall2_lookup_l _ _ _ _ _ Hpl Hj) as ([c' y] & _ & Hc' & Hy).
  simpl in Hc', Hy. rewrite column_of_key_of in Hc'. injection Hc' as <-.
  now exists y.
Qed.

Lemma update_account_none_supplied st i data :
  supplied data mutable_keys = [] -> update_account i data st = (Return tt, st).
Proof.
  intros Hs. unfold update_account.
  rewrite (collect_loop data mutable_keys [] [] 1).
  cbv beta iota zeta delta [mbind M_bind get_self].
  destruct (pool (self st)) as [p|]; [|reflexivity].
  change ([] ++ ?l) with l. now rewrite Hs.
Qed.

(** C5, as the code has it.  In every state, whatever the [id] and the
    values, keys outside the recognised list play no part in the outcome,
    and a mapping without a recognised key sends no statement and leaves the
    whole state as it was.  On a connected store, with an [id] in the range
    of the column and every supplied value one its column accepts,
    [update_account] returns and writes exactly the recognised fields that
    are present in the mapping, as given, into the row with that [id]: every
    other column of that row and every other row stay unchanged. *)
Theorem update_account_writes_supplied_fields
  (st : State) (i : Z) (data : gmap string pyval) :
  let st' := (update_account i data st).2 in
  (forall data',
      (forall k, k ∈ mutable_keys -> data' !! k = data !! k) ->
      update_account i data' st = update_account i data st) /\
  ((forall k, k ∈ mutable_keys -> data !! k = None) ->
   update_account i data st = (Return tt, st)) /\
  (connected st = true -> in_int4 i = true -> acceptable data = true ->
   (update_account i data st).1 = Return tt /\
   Forall2 (fun r r' => if Row.id r =? i
                        then forall c, read c r' = patched data c r
                        else r' = r)
           (rows_of st) (rows_of st') /\
   connected st' = true).
Proof.
  intros st'.
  split; [intros data' H; now apply update_account_ext|].
  split.
  { intros Hnone. apply update_account_none_supplied.
    destruct (supplied data mutable_keys) as [|[k v] sup] eqn:Hs; [reflexivity|].
    assert (Hin : (k, v) ∈ supplied data mutable_keys) by (rewrite Hs; left).
    apply supplied_elem in Hin as [Hk Hd]. rewrite (Hnone k Hk) in Hd.
    discriminate. }
  intros Hc Hi Ha.
  destruct (connected_inv st Hc) as (p & t & Hp & Ho & Ht & Hl).
  assert (Hu : unique_ids (rows t) = true) by (now apply legal_inv in Hl).
  assert (Hrs : rows_of st = rows t) by (unfold rows_of, table_of; now rewrite Ht).
  pose proof (update_account_accepted st p t i data Hp Ho Ht Hl Hi Ha) as Hret.
  assert (Hupd : Forall2 (updated data i) (rows t) (rows_of st')).
  { destruct (update_account_effect st p t Hp Ho Ht i data)
      as [(_ & _ & H) | (e & He & _)]; [exact H|].
    rewrite Hret in He. discriminate. }
  split; [exact Hret|].
  split.
  { rewrite Hrs. eapply Forall2_impl; [exact Hupd|]. simpl.
    intros r r'. unfold updated. destruct (Row.id r =? i); [|auto].
    intros H c. rewrite H. now apply patched_new_value. }
  destruct (update_account_table st p t Hp Ho Ht i data) as [Htab Hself].
  apply (connected_after st st' _ Hc Hself Htab).
  apply (legal_same_ids t _ Hl). simpl. eapply updated_ids; eauto.
Qed.

Lemma update_account_writes_supplied_fields_witness :
  let st := store_with [sample_row 1 (Some 5); sample_row 2 (Some 7)] 3 in
  let res := update_account 2 {[ "name" := PStr "X"; "colour" := PStr "red" ]} st in
  let wide := update_account 2 {[ "name" := PStr wide_name ]} st in
  (res.1 = Return tt /\
   rows_of res.2
   = [sample_row 1 (Some 5);
      Row.mk 2 (Some "X") "sc" (Some "") "idx" "cfg" (Some true) (Some 7) None (Some 0)]) /\
  (wide.1 = Return tt /\
   Forall2 (fun r r' => if Row.id r =? 2
                        then read Cname r' = VText wide_name
                        else r' = r)
           (rows_of st) (rows_of wide.2)).
Proof.
  intros st res wide.
  pose proof (update_account_writes_supplied_fields st 2
                {[ "name" := PStr "X"; "colour" := PStr "red" ]}) as H.
  pose proof (update_account_writes_supplied_fields st 2
                {[ "name" := PStr wide_name ]}) as H'.
  cbv zeta in H, H'. destruct H as (_ & _ & H). destruct H' as (_ & _ & H').
  destruct (H eq_refl eq_refl eq_refl) as (Hret & _).
  assert (Ha : acceptable {[ "name" := PStr wide_name ]} = true)
    by (vm_compute; reflexivity).
  destruct (H' eq_refl eq_refl Ha) as (Hret' & Hrows' & _).
  split; [split; [exact Hret|reflexivity]|].
  split; [exact Hret'|].
  eapply Forall2_impl; [exact Hrows'|]. intros r r' Hr. cbv beta in Hr |- *.
  destruct (Row.id r =? 2); [|exact Hr]. rewrite (Hr Cname). reflexivity.
Defined.

(** C5 as stated fails when a supplied value is not one its column takes, or
    the [id] is none the column can hold: a [name] of 256 characters, NULL
    for a [NOT NULL] column, a string for the boolean flag, a text with a NUL
    character or an [id] beyond the [INTEGER] range make the call raise, and
    the supplied fields keep their old values. *)
Lemma update_account_rejects_long_name :
  let st := store_with [sample_row 1 (Some 0)] 2 in
  let fails (i : Z) (data : gmap string pyval) (e : exn) :=
    (update_account i data st).1 = Raise e
    /\ rows_of (update_account i data st).2 = rows_of st in
  connected st = true /\
  fails 1 {[ "name" := PStr long_name ]} StringDataRightTruncationError /\
  fails 1 {[ "secure_c_ses" := PNone ]} (NotNullViolationError "secure_c_ses") /\
  fails 1 {[ "is_active" := PStr "yes" ]} DataError /\
  fails 1 {[ "host_c_oses" := PStr nul_text ]} CharacterNotInRepertoireError /\
  fails 2147483648 {[ "name" := PStr "X" ]} DataError.
Proof.
  intros st fails. repeat split.
Qed.

(** C10. On a connected store [update_account] sends at most one statement,
    a single [UPDATE] that carries every recognised field of the mapping.
    Either it succeeds, and then in the row with the given [id] each supplied
    recognised field holds its new value (as its column stores it) while
    everything else is unchanged; or it fails with an error that propagates,
    and then no row has changed at all.  No outcome applies only some of the
    supplied fields. *)
Theorem update_account_all_or_nothing
  (st : State) (i : Z) (data : gmap string pyval) :
  connected st = true ->
  let res := update_account i data st in
  calls_of res.2
  = calls_of st ++
    match supplied data mutable_keys with
    | [] => []
    | sup => [(Update (number 1 sup) (S (length sup)), sup.*2 ++ [PInt i])]
    end /\
  ((res.1 = Return tt /\
    Forall2 (fun r r' =>
               if Row.id r =? i then
                 (forall c v, mutable c = true -> data !! key_of c = Some v ->
                              stored c v = Some (read c r')) /\
                 (forall c, mutable c = false \/ data !! key_of c = None ->
                            read c r' = read c r)
               else r' = r)
            (rows_of st) (rows_of res.2))
   \/ (exists e, res.1 = Raise e /\ rows_of res.2 = rows_of st)).
Proof.
  intros Hc res.
  destruct (connected_inv st Hc) as (p & t & Hp & Ho & Ht & Hl).
  assert (Hrs : rows_of st = rows t) by (unfold rows_of, table_of; now rewrite Ht).
  split.
  { unfold res. rewrite (update_account_open st p i data Hp Ho).
    destruct (supplied data mutable_keys) as [|kv sup].
    - simpl. now rewrite app_nil_r.
    - apply (one_update_calls st t Ht). }
  rewrite Hrs.
  destruct (update_account_effect st p t Hp Ho Ht i data)
    as [(Hret & (l & Hpl) & Hupd) | Hfail]; [left|right; exact Hfail].
  split; [exact Hret|].
  eapply Forall2_impl; [exact Hupd|]. simpl.
  intros r r'. unfold updated. destruct (Row.id r =? i); [|auto].
  intros H. split.
  - intros c v Hm Hd. rewrite H. unfold new_value. rewrite Hm, Hd.
    destruct (placed_stored data l c v Hpl Hm Hd) as [y ->]. reflexivity.
  - intros c [Hm | Hd]; rewrite H; unfold new_value.
    + now rewrite Hm.
    + rewrite Hd. now destruct (mutable c).
Qed.

Lemma update_account_all_or_nothing_witness :
  let st := store_with [sample_row 1 (Some 5)] 2 in
  let res := update_account 1 {[ "name" := PStr "X"; "secure_c_ses" := PNone ]} st in
  let wide := update_account 1 {[ "name" := PStr wide_name ]} st in
  (res.1 = Raise (NotNullViolationError "secure_c_ses") /\ rows_of res.2 = rows_of st) /\
  (wide.1 = Return tt /\
   Forall2 (fun r r' => if Row.id r =? 1
                        then read Cname r' = VText wide_name
                        else r' = r)
           (rows_of st) (rows_of wide.2)).
Proof.
  intros st res wide. split.
  - pose proof (update_account_all_or_nothing st 1
                  {[ "name" := PStr "X"; "secure_c_ses" := PNone ]} eq_refl) as H.
    cbv zeta in H. destruct H as [_ [[H _] | (e & He & Hrows)]].
    + vm_compute in H. discriminate.
    + split; [reflexivity|exact Hrows].
  - pose proof (update_account_all_or_nothing st 1
                  {[ "name" := PStr wide_name ]} eq_refl) as H.
    cbv zeta in H. destruct H as [_ [[Hret Hrows] | (e & He & _)]].
    + split; [exact Hret|].
      eapply Forall2_impl; [exact Hrows|]. intros r r' Hr. cbv beta in Hr |- *.
      destruct (Row.id r =? 1); [|exact Hr]. destruct Hr as [Hr _].
      symmetry. apply (f_equal (fun o => default VNull o) (Hr Cname (PStr wide_name) eq_refl eq_refl)).
    + vm_compute in He. discriminate.
Defined.

(** ** Accounts over a history of calls *)

Lemma count_le_refl a : count_le a a.
Proof. destruct a; simpl; [lia|exact I]. Qed.

Lemma count_le_trans a b c : count_le a b -> count_le b c -> count_le a c.
Proof. destruct a, b, c; simpl; try tauto; lia. Qed.

Lemma evolves_refl r : evolves r r.
Proof. repeat split. apply count_le_refl. Qed.

Lemma evolves_trans r1 r2 r3 : evolves r1 r2 -> evolves r2 r3 -> evolves r1 r3.
Proof.
  intros (Hi & Hc & Hq) (Hi' & Hc' & Hq'). repeat split; try congruence.
  eapply count_le_trans; eauto.
Qed.

Lemma protected_kept_evolves r r' : protected_kept r r' -> evolves r r'.
Proof.
  intros (Hi & Hq & _ & Hc). repeat split; auto. rewrite Hq. apply count_le_refl.
Qed.

Lemma updated_protected data i r r' : updated data i r r' -> protected_kept r r'.
Proof.
  unfold updated. destruct (Row.id r =? i); [|intros ->; repeat split].
  intros H.
  pose proof (H Cid) as H1. pose proof (H Crequest_count) as H2.
  pose proof (H Clast_used_at) as H3. pose proof (H Ccreated_at) as H4.
  unfold new_value in *. simpl in *.
  destruct r as [ri rn rs rh rx rg ra rq rl rt].
  destruct r' as [ri' rn' rs' rh' rx' rg' ra' rq' rl' rt']. simpl in *.
  unfold protected_kept. simpl.
  destruct rq, rq', rl, rl', rt, rt'; simpl in *; try discriminate;
    repeat split; congruence.
Qed.

Lemma advances_refl st : sound st = true -> advances st st.
Proof.
  intros Hs. repeat split; [exact Hs|lia|].
  intros r' Hr'. left. exists r'. split; [exact Hr'|apply evolves_refl].
Qed.

Lemma advances_trans st1 st2 st3 :
  advances st1 st2 -> advances st2 st3 -> advances st1 st3.
Proof.
  intros (_ & Hn & H12) (Hs & Hn' & H23). repeat split; [exact Hs|lia|].
  intros r3 Hr3. destruct (H23 r3 Hr3) as [(r2 & Hr2 & He23) | Hnew].
  - destruct (H12 r2 Hr2) as [(r1 & Hr1 & He12) | Hnew].
    + left. exists r1. split; [exact Hr1|]. eapply evolves_trans; eauto.
    + right. destruct He23 as (Hid & _). lia.
  - right. lia.
Qed.

(** Whatever leaves the table alone advances. *)
Lemma advances_same_table st st' :
  sound st = true -> table_of st' = table_of st -> advances st st'.
Proof.
  intros Hs Ht. unfold advances, sound, next_id, rows_of in *. rewrite Ht.
  repeat split; [exact Hs|lia|].
  intros r' Hr'. left. exists r'. split; [exact Hr'|apply evolves_refl].
Qed.

(** A statement that maps each row to a later version of it advances. *)
Lemma advances_rows st st' t rs' :
  table_of st = Some t -> legal t = true ->
  table_of st' = Some (mkTable rs' (id_seq t) (lacks t)) ->
  Forall2 evolves (rows t) rs' ->
  advances st st'.
Proof.
  intros Ht Hl Ht' Hev. unfold advances, sound, next_id, rows_of.
  rewrite Ht, Ht'. simpl.
  assert (Hids : map Row.id rs' = map Row.id (rows t)).
  { clear -Hev. induction Hev as [|r r' rs rs' (Hi & _) _ IH]; simpl; congruence. }
  repeat split.
  - now apply (legal_same_ids t).
  - lia.
  - intros r' Hr'. left. apply list_elem_of_lookup in Hr' as [j Hj].
    destruct (Forall2_lookup_r _ _ _ _ _ Hev Hj) as (r & Hr & He).
    exists r. split; [|exact He]. eapply list_elem_of_lookup_2; eauto.
Qed.

Lemma unique_ids_filter (f : Row.t -> bool) rs :
  unique_ids rs = true -> unique_ids (List.filter f rs) = true.
Proof.
  induction rs as [|r rs IH]; simpl; [reflexivity|].
  intros H. apply andb_true_iff in H as [Hr Hu].
  destruct (f r); simpl; [|auto].
  rewrite IH by exact Hu. rewrite andb_true_r.
  apply negb_true_iff. apply negb_true_iff in Hr.
  apply not_true_is_false. intros Hex. apply existsb_exists in Hex as (x & Hx & Hid).
  apply filter_In in Hx as [Hx _].
  rewrite <- not_true_iff_false in Hr. apply Hr. apply existsb_exists. eauto.
Qed.

Lemma unique_ids_eq rs r1 r2 :
  unique_ids rs = true -> r1 ∈ rs -> r2 ∈ rs -> Row.id r1 = Row.id r2 -> r1 = r2.
Proof.
  induction rs as [|r rs IH]; simpl; intros Hu H1 H2 Hid.
  - now apply elem_of_nil in H1.
  - apply andb_true_iff in Hu as [Hr Hu]. apply negb_true_iff in Hr.
    rewrite <- not_true_iff_false in Hr.
    apply elem_of_cons in H1 as [-> | H1]; apply elem_of_cons in H2 as [-> | H2].
    + reflexivity.
    + exfalso. apply Hr. apply existsb_exists. exists r2.
      split; [now apply list_elem_of_In|]. apply Z.eqb_eq. congruence.
    + exfalso. apply Hr. apply existsb_exists. exists r1.
      split; [now apply list_elem_of_In|]. apply Z.eqb_eq. congruence.
    + now apply IH.
Qed.

(** The two usage statements map each row to a later version of it. *)
Lemma run_usage_evolves (count : bool) i now rs rs' :
  run_update (if count
              then [("last_used_at", NOW); ("request_count", RequestCountPlusOne)]
              else [("last_used_at", NOW)]) 1 [PInt i] now rs = Return rs' ->
  Forall2 evolves rs rs'.
Proof.
  unfold run_update. destruct count; simpl;
    (destruct (in_int4 i); simpl; [|discriminate]);
    (destruct (update_rows _ _ _ _) as [rs0|] eqn:Hup; simpl; [|discriminate]);
    unfold check_primary_key; (destruct (unique_ids rs0); [|discriminate]);
    intros [= <-]; apply mapM_Return_inv in Hup;
    (eapply Forall2_impl; [exact Hup|]); simpl; intros r r';
    (destruct (Row.id r =? i); [|intros [= <-]; apply evolves_refl]);
    destruct r as [ri rn rs'' rh rx rg ra [q|] rl rt]; simpl;
    try (destruct (q + 1 <=? int8_max) eqn:Hq; simpl; [|discriminate]);
    intros [= <-]; repeat split; simpl; lia.
Qed.

Lemma new_row_id seq now vs r : new_row seq now vs = Return r -> Row.id r = seq.
Proof.
  unfold new_row.
  destruct vs as [|v1 [|v2 [|v3 [|v4 [|v5 [|]]]]]]; try discriminate.
  destruct (as_text v2); simpl; [|discriminate].
  destruct (as_text v4); simpl; [|discriminate].
  destruct (as_text v5); simpl; [|discriminate].
  now intros [= <-].
Qed.

Section OneCall.
Variable st : State.
Variable t : Table.
Hypothesis has_table : relation (database (world st)) = Some t.
Hypothesis is_legal : legal t = true.

Lemma sound_here : sound st = true.
Proof. unfold sound, table_of. now rewrite has_table. Qed.

Lemma one_select_advances q args :
  q = SelectActive \/ q = SelectAll ->
  advances st (with_database (execute q args (clock (world st)) (database (world st))).2 st).
Proof.
  intros Hq. apply advances_same_table; [apply sound_here|].
  unfold execute, table_of.
  destruct Hq as [-> | ->]; simpl; rewrite has_table;
    rewrite (legal_current t is_legal), check_columns_nil; simpl;
    now rewrite has_table.
Qed.

Lemma one_update_advances cls w args :
  (forall rs', run_update cls w args (clock (world st)) (rows t) = Return rs' ->
               Forall2 evolves (rows t) rs') ->
  advances st (one_call (Update cls w) args st).2.
Proof.
  intros H.
  apply (advances_rows st _ t _ has_table is_legal (one_update_table st t has_table (legal_current t is_legal) _ _ _)).
  destruct (run_update _ _ _ _ _) as [rs'|]; [now apply H|].
  apply Forall_Forall2_diag, Forall_forall. intros r _. apply evolves_refl.
Qed.

Lemma one_insert_advances args :
  advances st (one_call InsertAccount args st).2.
Proof.
  destruct (legal_inv t is_legal) as (Hu & Hids & Hseq).
  unfold one_call, execute. simpl. rewrite has_table.
  rewrite (legal_current t is_legal), check_columns_nil.
  unfold run_insert.
  destruct (andThen (bind_all args 1 insert_types) (coerce_all insert_types))
    as [vs|e].
  2:{ simpl. apply advances_same_table; [apply sound_here|].
      unfold table_of. simpl. rewrite has_table.
      now rewrite (table_eta_current t (legal_current t is_legal)). }
  destruct (Z.leb_spec (id_seq t) int4_max) as [Hle|Hgt].
  2:{ simpl. apply advances_same_table; [apply sound_here|].
      unfold table_of. simpl. rewrite has_table.
      now rewrite (table_eta_current t (legal_current t is_legal)). }
  assert (Hkeep : advances st
            (with_database
               (with_table (mkTable (rows t) (id_seq t + 1) [])
                  (record_call InsertAccount args (database (world st)))) st)).
  { unfold advances, sound, next_id, rows_of, table_of. simpl. rewrite has_table.
    repeat split; [|lia|].
    - apply legal_intro; auto; [|lia].
      eapply Forall_impl; [exact Hids|]. simpl. intros; lia.
    - intros r' Hr'. left. exists r'. split; [exact Hr'|apply evolves_refl]. }
  destruct (new_row (id_seq t) (clock (world st)) vs) as [r|e] eqn:Hnew; simpl;
    [|exact Hkeep].
  unfold check_primary_key.
  destruct (unique_ids (rows t ++ [r])) eqn:Hu'; simpl; [|exact Hkeep].
  apply new_row_id in Hnew.
  unfold advances, sound, next_id, rows_of, table_of. simpl. rewrite has_table.
  repeat split; [|lia|].
  - apply legal_intro; auto; [|lia].
    apply Forall_app. split.
    + eapply Forall_impl; [exact Hids|]. simpl. intros; lia.
    + constructor; [lia|constructor].
  - intros r' Hr'. apply elem_of_app in Hr' as [Hr' | Hr'].
    + left. exists r'. split; [exact Hr'|apply evolves_refl].
    + right. apply list_elem_of_singleton in Hr'. subst r'. lia.
Qed.

Lemma one_delete_advances args :
  advances st (one_call DeleteById args st).2.
Proof.
  destruct (legal_inv t is_legal) as (Hu & Hids & Hseq).
  unfold one_call, execute. simpl. rewrite has_table.
  rewrite (legal_current t is_legal), check_columns_nil. cbn [andThen].
  unfold run_delete.
  destruct (bind_param args 1 TInt4) as [w|e]; simpl.
  2:{ apply advances_same_table; [apply sound_here|].
      unfold table_of. simpl. now rewrite has_table. }
  unfold advances, sound, next_id, rows_of, table_of. simpl. rewrite has_table.
  repeat split; [|lia|].
  - apply legal_intro; [now apply unique_ids_filter| |lia].
    apply Forall_forall. intros r Hr. apply list_elem_of_In, filter_In in Hr as [Hr _].
    rewrite Forall_forall in Hids. apply Hids. now apply list_elem_of_In.
  - intros r' Hr'. left. exists r'. split; [|apply evolves_refl].
    apply list_elem_of_In, filter_In in Hr' as [Hr' _]. now apply list_elem_of_In.
Qed.
End OneCall.

(** Without a table every statement but the schema script fails and leaves
    the database without a table. *)
Lemma one_call_no_table st q args :
  relation (database (world st)) = None -> q <> CreateSchema ->
  table_of (one_call q args st).2 = None.
Proof.
  intros Ht Hq. unfold one_call, execute, table_of.
  destruct q; simpl; rewrite ?Ht; simpl; rewrite ?Ht; try reflexivity.
  congruence.
Qed.

Lemma fetch_no_table st q args :
  relation (database (world st)) = None -> q <> CreateSchema ->
  table_of (with_database (execute q args (clock (world st)) (database (world st))).2 st)
  = None.
Proof.
  intros Ht Hq. unfold execute, table_of.
  destruct q; simpl; rewrite ?Ht; simpl; rewrite ?Ht; try reflexivity.
  congruence.
Qed.

Lemma connect_table st :
  table_of (connect st).2 = table_of st
  \/ (table_of st = None /\ table_of (connect st).2 = Some (mkTable [] 1 []))
  \/ (exists t, table_of st = Some t
                /\ table_of (connect st).2 = Some (add_request_count t)).
Proof.
  run_method. simpl. destruct (truthy_url (database_url (self st))) as [dsn|];
    [|now left].
  destruct (reachable (world st) dsn); simpl; [|now left].
  unfold execute, table_of. simpl.
  destruct (relation (database (world st))) as [t|] eqn:Ht; simpl.
  - unfold run_schema.
    destruct (check_columns _ _); simpl; rewrite ?Ht; [|now left].
    right; right. now exists t.
  - right; left. auto.
Qed.

Lemma disconnect_table st : table_of (disconnect st).2 = table_of st.
Proof.
  run_method. simpl. destruct (pool (self st)) as [p|] eqn:Hp; simpl;
    rewrite ?Hp; reflexivity.
Qed.

Lemma update_account_closed st p i data :
  pool (self st) = Some p -> closed p = true -> (update_account i data st).2 = st.
Proof.
  intros Hp Ho. unfold update_account.
  rewrite (collect_loop data mutable_keys [] [] 1).
  cbv beta iota zeta delta [mbind M_bind get_self]. rewrite Hp.
  change ([] ++ ?l) with l.
  destruct (supplied data mutable_keys) as [|[k v] sup]; [reflexivity|].
  cbn [number]. run_method. now rewrite Ho.
Qed.

Ltac closed_pool Hp Ho :=
  run_method; simpl; rewrite Hp; simpl; rewrite Ho; reflexivity.

(** Each call keeps the table legal and every account on its course. *)
Lemma perform_advances c st : sound st = true -> advances st (perform c st).
Proof.
  intros Hs.
  assert (Hleg : forall t, relation (database (world st)) = Some t -> legal t = true).
  { intros t Ht. unfold sound, table_of in Hs. now rewrite Ht in Hs. }
  destruct c as [| | |i|i|n s h x g| |i data|i]; simpl.
  - (* connect *)
    destruct (connect_table st) as [H | [[Hnone H] | (t & Ht & H)]].
    + now apply advances_same_table.
    + unfold advances, sound, next_id, rows_of. rewrite H, Hnone. simpl.
      repeat split; [lia|]. intros r' Hr'. now apply elem_of_nil in Hr'.
    + apply advances_same_table; [exact Hs|].
      rewrite H, Ht. f_equal. apply add_request_count_current, legal_current.
      unfold sound in Hs. now rewrite Ht in Hs.
  - (* disconnect *)
    apply advances_same_table; [exact Hs|apply disconnect_table].
  - (* fetch_active_accounts *)
    destruct (pool (self st)) as [p|] eqn:Hp; [destruct (closed p) eqn:Ho|].
    + replace (fetch_active_accounts st).2 with st by (symmetry; closed_pool Hp Ho).
      now apply advances_refl.
    + rewrite (fetch_active_accounts_open st p Hp Ho). simpl.
      destruct (relation (database (world st))) as [t|] eqn:Ht.
      * apply (one_select_advances st t Ht (Hleg t eq_refl)). now left.
      * apply advances_same_table; [exact Hs|].
        rewrite fetch_no_table by (auto; discriminate).
        unfold table_of. now rewrite Ht.
    + rewrite disabled_fetch_active_accounts by exact Hp. now apply advances_refl.
  - (* increment_account_usage *)
    destruct (pool (self st)) as [p|] eqn:Hp; [destruct (closed p) eqn:Ho|].
    + replace (increment_account_usage i st).2 with st by (symmetry; closed_pool Hp Ho).
      now apply advances_refl.
    + rewrite (increment_account_usage_open st p Hp Ho).
      destruct (relation (database (world st))) as [t|] eqn:Ht.
      * apply (one_update_advances st t Ht (Hleg t eq_refl)).
        intros rs'. apply (run_usage_evolves true).
      * apply advances_same_table; [exact Hs|].
        rewrite one_call_no_table by (auto; discriminate).
        unfold table_of. now rewrite Ht.
    + rewrite disabled_increment_account_usage by exact Hp. now apply advances_refl.
  - (* update_account_usage *)
    destruct (pool (self st)) as [p|] eqn:Hp; [destruct (closed p) eqn:Ho|].
    + replace (update_account_usage i st).2 with st by (symmetry; closed_pool Hp Ho).
      now apply advances_refl.
    + rewrite (update_account_usage_open st p Hp Ho).
      destruct (relation (database (world st))) as [t|] eqn:Ht.
      * apply (one_update_advances st t Ht (Hleg t eq_refl)).
        intros rs'. apply (run_usage_evolves false).
      * apply advances_same_table; [exact Hs|].
        rewrite one_call_no_table by (auto; discriminate).
        unfold table_of. now rewrite Ht.
    + rewrite disabled_update_account_usage by exact Hp. now apply advances_refl.
  - (* add_account *)
    destruct (pool (self st)) as [p|] eqn:Hp; [destruct (closed p) eqn:Ho|].
    + replace (add_account n s h x g st).2 with st by (symmetry; closed_pool Hp Ho).
      now apply advances_refl.
    + rewrite (add_account_open st p Hp Ho).
      destruct (relation (database (world st))) as [t|] eqn:Ht.
      * apply (one_insert_advances st t Ht (Hleg t eq_refl)).
      * apply advances_same_table; [exact Hs|].
        rewrite one_call_no_table by (auto; discriminate).
        unfold table_of. now rewrite Ht.
    + rewrite disabled_add_account by exact Hp. now apply advances_refl.
  - (* get_all_accounts *)
    destruct (pool (self st)) as [p|] eqn:Hp; [destruct (closed p) eqn:Ho|].
    + replace (get_all_accounts st).2 with st by (symmetry; closed_pool Hp Ho).
      now apply advances_refl.
    + rewrite (get_all_accounts_open st p Hp Ho). simpl.
      destruct (relation (database (world st))) as [t|] eqn:Ht.
      * apply (one_select_advances st t Ht (Hleg t eq_refl)). now right.
      * apply advances_same_table; [exact Hs|].
        rewrite fetch_no_table by (auto; discriminate).
        unfold table_of. now rewrite Ht.
    + rewrite disabled_get_all_accounts by exact Hp. now apply advances_refl.
  - (* update_account *)
    destruct (pool (self st)) as [p|] eqn:Hp; [destruct (closed p) eqn:Ho|].
    + rewrite (update_account_closed st p i data Hp Ho). now apply advances_refl.
    + destruct (relation (database (world st))) as [t|] eqn:Ht.
      * destruct (update_account_table st p t Hp Ho Ht i data) as [Htab _].
        apply (advances_rows st _ t _ Ht (Hleg t eq_refl) Htab).
        destruct (update_account_effect st p t Hp Ho Ht i data)
          as [(_ & _ & Hupd) | (e & _ & ->)].
        -- eapply Forall2_impl; [exact Hupd|]. simpl. intros r r' H.
           eapply protected_kept_evolves, updated_protected. exact H.
        -- apply Forall_Forall2_diag, Forall_forall. intros r _. apply evolves_refl.
      * apply advances_same_table; [exact Hs|].
        rewrite (update_account_open st p i data Hp Ho).
        destruct (supplied data mutable_keys) as [|kv sup]; [reflexivity|].
        rewrite one_call_no_table by (auto; discriminate).
        unfold table_of. now rewrite Ht.
    + rewrite disabled_update_account by exact Hp. now apply advances_refl.
  - (* delete_account *)
    destruct (pool (self st)) as [p|] eqn:Hp; [destruct (closed p) eqn:Ho|].
    + replace (delete_account i st).2 with st by (symmetry; closed_pool Hp Ho).
      now apply advances_refl.
    + rewrite (delete_account_open st p Hp Ho).
      destruct (relation (database (world st))) as [t|] eqn:Ht.
      * apply (one_delete_advances st t Ht (Hleg t eq_refl)).
      * apply advances_same_table; [exact Hs|].
        rewrite one_call_no_table by (auto; discriminate).
        unfold table_of. now rewrite Ht.
    + rewrite disabled_delete_account by exact Hp. now apply advances_refl.
Qed.

Lemma perform_all_advances cs st :
  sound st = true -> advances st (perform_all cs st).
Proof.
  revert st. induction cs as [|[now c] cs IH]; intros st Hs; simpl.
  - now apply advances_refl.
  - assert (H1 : advances st (perform c (at_time now st))).
    { eapply advances_trans; [|apply perform_advances; exact Hs].
      now apply advances_same_table. }
    eapply advances_trans; [exact H1|]. apply IH. apply H1.
Qed.

(** A manager constructed over a database without the table is sound, so
    every state a history of calls leads to from there is sound as well. *)
Lemma init_sound w : relation (database w) = None -> sound (init w) = true.
Proof. intros H. unfold sound, table_of. simpl. now rewrite H. Qed.

Lemma reachable_sound w cs :
  relation (database w) = None -> sound (perform_all cs (init w)) = true.
Proof. intros H. apply perform_all_advances. now apply init_sound. Qed.

(** [update_account] has no way to the protected columns, whatever state it
    finds and whatever keys the mapping holds. *)
Lemma update_account_protected st i data :
  Forall2 protected_kept (rows_of st) (rows_of (update_account i data st).2).
Proof.
  assert (Hrefl : forall rs, Forall2 protected_kept rs rs).
  { intros rs. apply Forall_Forall2_diag, Forall_forall. intros r _.
    repeat split. }
  destruct (pool (self st)) as [p|] eqn:Hp; [destruct (closed p) eqn:Ho|].
  - rewrite (update_account_closed st p i data Hp Ho). apply Hrefl.
  - destruct (relation (database (world st))) as [t|] eqn:Ht.
    + assert (Hrs : rows_of st = rows t)
        by (unfold rows_of, table_of; now rewrite Ht).
      rewrite Hrs.
      destruct (update_account_effect st p t Hp Ho Ht i data)
        as [(_ & _ & Hupd) | (e & _ & ->)]; [|apply Hrefl].
      eapply Forall2_impl; [exact Hupd|]. simpl. intros r r'.
      apply updated_protected.
    + assert (Hnone : table_of (update_account i data st).2 = None).
      { rewrite (update_account_open st p i data Hp Ho).
        destruct (supplied data mutable_keys) as [|kv sup].
        - unfold table_of. simpl. now rewrite Ht.
        - apply one_call_no_table; [exact Ht|discriminate]. }
      unfold rows_of at 2. rewrite Hnone.
      unfold rows_of, table_of. rewrite Ht. constructor.
  - rewrite disabled_update_account by exact Hp. apply Hrefl.
Qed.

(** C2. From a sound state (in particular from every state reachable from a
    fresh start), over every history of calls to the public methods at
    whatever times: an account present before and after, recognised by its
    [id], has the same [created_at] and a [request_count] that has not
    decreased; every row afterwards is a later version of an old row with
    the same [id], or carries an [id] that had not been handed out before;
    and [update_account], whatever keys its mapping holds, leaves [id],
    [request_count], [last_used_at] and [created_at] of every row as they
    were. *)
Theorem accounts_keep_id_created_at_and_count (st : State) (cs : list (Z * call)) :
  sound st = true ->
  let st' := perform_all cs st in
  sound st' = true /\
  (forall r r', r ∈ rows_of st -> r' ∈ rows_of st' -> Row.id r' = Row.id r ->
                Row.created_at r' = Row.created_at r
                /\ count_le (Row.request_count r) (Row.request_count r')) /\
  (forall r', r' ∈ rows_of st' ->
              (exists r, r ∈ rows_of st /\ evolves r r') \/ next_id st <= Row.id r') /\
  (forall i data,
      Forall2 protected_kept (rows_of st') (rows_of (update_account i data st').2)).
Proof.
  intros Hs st'.
  destruct (perform_all_advances cs st Hs) as (Hs' & Hn & Hrows). fold st' in Hs', Hn, Hrows.
  split; [exact Hs'|]. split; [|split; [exact Hrows|]].
  - intros r r' Hr Hr' Hid.
    unfold sound, rows_of, next_id in *.
    destruct (table_of st) as [t|] eqn:Ht; [|now apply elem_of_nil in Hr].
    destruct (legal_inv t Hs) as (Hu & Hids & _).
    destruct (Hrows r' Hr') as [(r0 & Hr0 & Hi0 & Hc0 & Hq0) | Hnew].
    + assert (r0 = r) as -> by (apply (unique_ids_eq (rows t)); auto; congruence).
      auto.
    + rewrite Forall_forall in Hids. specialize (Hids r Hr). lia.
  - intros i data. apply update_account_protected.
Qed.

Lemma accounts_keep_id_created_at_and_count_witness :
  let st := store_with [sample_row 1 (Some 5)] 2 in
  let st' := perform_all
               [(1001, IncrementAccountUsage 1);
                (1002, UpdateAccount 1 {[ "request_count" := PInt 0; "id" := PInt 9;
                                          "name" := PStr "renamed" ]});
                (1003, AddAccount (PStr "b") (PStr "s") PNone (PStr "x") (PStr "g"));
                (1004, DeleteAccount 2)] st in
  sound st' = true /\
  rows_of st'
  = [Row.mk 1 (Some "renamed") "sc" (Some "") "idx" "cfg" (Some true) (Some 6)
            (Some 1001) (Some 0)].
Proof.
  intros st st'.
  pose proof (accounts_keep_id_created_at_and_count st
                [(1001, IncrementAccountUsage 1);
                 (1002, UpdateAccount 1 {[ "request_count" := PInt 0; "id" := PInt 9;
                                           "name" := PStr "renamed" ]});
                 (1003, AddAccount (PStr "b") (PStr "s") PNone (PStr "x") (PStr "g"));
                 (1004, DeleteAccount 2)] eq_refl) as H.
  cbv zeta in H. destruct H as (H & _). split; [exact H|reflexivity].
Defined.

(** * Further properties of the methods *)

(** ** Deleting an account *)

Lemma run_delete_spec i rs :
  run_delete [PInt i] rs
  = if in_int4 i then Return (without_id i rs) else Raise DataError.
Proof.
  unfold run_delete. simpl. destruct (in_int4 i); reflexivity.
Qed.

Lemma without_id_no_match i rs :
  Forall (fun r => Row.id r <> i) rs -> without_id i rs = rs.
Proof.
  induction 1 as [|r rs Hr _ IH]; [reflexivity|].
  unfold without_id in *. simpl.
  destruct (Z.eqb_spec (Row.id r) i); [contradiction|]. simpl. now rewrite IH.
Qed.

Lemma without_id_gone i rs : Forall (fun r => Row.id r <> i) (without_id i rs).
Proof.
  apply Forall_forall. intros r Hr.
  apply list_elem_of_In, filter_In in Hr as [_ Hr].
  apply negb_true_iff, Z.eqb_neq in Hr. exact Hr.
Qed.

Lemma delete_account_effect st i :
  connected st = true ->
  rows_of (delete_account i st).2 = without_id i (rows_of st) /\
  next_id (delete_account i st).2 = next_id st /\
  connected (delete_account i st).2 = true /\
  (in_int4 i = true -> (delete_account i st).1 = Return tt).
Proof.
  intros Hc.
  destruct (connected_inv st Hc) as (p & t & Hp & Ho & Ht & Hl).
  assert (Hrs : rows_of st = rows t) by (unfold rows_of, table_of; now rewrite Ht).
  assert (Hn : next_id st = id_seq t) by (unfold next_id, table_of; now rewrite Ht).
  rewrite (delete_account_open st p Hp Ho).
  unfold one_call, execute. simpl.
  rewrite Ht, (legal_current t Hl), check_columns_nil. cbn [andThen].
  rewrite run_delete_spec.
  destruct (in_int4 i) eqn:Hi; simpl.
  - unfold rows_of, next_id, connected, open_pool, table_of. simpl.
    rewrite Ht, Hp, Ho. simpl. repeat split.
    destruct (legal_inv t Hl) as (Hu & Hids & Hseq).
    apply legal_intro; [now apply unique_ids_filter| |exact Hseq].
    apply Forall_forall. intros r Hr.
    apply list_elem_of_In, filter_In in Hr as [Hr _].
    rewrite Forall_forall in Hids. apply Hids. now apply list_elem_of_In.
  - unfold rows_of, next_id, connected, open_pool, table_of. simpl.
    rewrite Ht, Hp, Ho, Hl. simpl. repeat split; try discriminate.
    symmetry. apply without_id_no_match. now apply legal_ids_in_range.
Qed.

(** X1. On a connected store [delete_account] leaves exactly the rows whose
    [id] differs from the given one, each as it was and in the same order;
    when no row has that [id] the table is unchanged.  It returns for every
    [id] in the range of the column, the sequence is not moved, and deleting
    the same [id] again returns as well and changes nothing. *)
Theorem delete_account_removes_the_row (st : State) (i : Z) :
  connected st = true ->
  let st' := (delete_account i st).2 in
  rows_of st' = without_id i (rows_of st) /\
  Forall (fun r => Row.id r <> i) (rows_of st') /\
  (Forall (fun r => Row.id r <> i) (rows_of st) -> rows_of st' = rows_of st) /\
  next_id st' = next_id st /\
  (in_int4 i = true ->
   (delete_account i st).1 = Return tt /\
   (delete_account i st').1 = Return tt) /\
  rows_of (delete_account i st').2 = rows_of st'.
Proof.
  intros Hc st'.
  destruct (delete_account_effect st i Hc) as (Hrows & Hn & Hc' & Hret).
  fold st' in Hrows, Hn, Hc'.
  destruct (delete_account_effect st' i Hc') as (Hrows2 & _ & _ & Hret2).
  split; [exact Hrows|].
  split; [rewrite Hrows; apply without_id_gone|].
  split; [intros H; rewrite Hrows; now apply without_id_no_match|].
  split; [exact Hn|].
  split; [intros Hi; split; auto|].
  rewrite Hrows2. apply without_id_no_match. rewrite Hrows. apply without_id_gone.
Qed.

Lemma delete_account_removes_the_row_witness :
  let st := store_with [sample_row 1 (Some 5); sample_row 2 (Some 7)] 3 in
  rows_of (delete_account 1 st).2 = [sample_row 2 (Some 7)].
Proof.
  intros st.
  pose proof (delete_account_removes_the_row st 1 eq_refl) as H.
  cbv zeta in H. destruct H as (H & _). rewrite H. reflexivity.
Defined.

(** ** Listing every account *)

#[local] Instance by_id_trans : Transitive by_id.
Proof. intros a b c. unfold by_id. lia. Qed.

#[local] Instance by_id_total : Total by_id.
Proof. intros a b. unfold by_id. lia. Qed.

Lemma unique_ids_NoDup rs : unique_ids rs = true -> NoDup (map Row.id rs).
Proof.
  induction rs as [|r rs IH]; simpl; intros H; [constructor|].
  apply andb_true_iff in H as [Hr Hu]. apply NoDup_cons. split; [|auto].
  intros Hin. apply list_elem_of_In, in_map_iff in Hin as (r' & Hid & Hr').
  apply negb_true_iff in Hr. rewrite <- not_true_iff_false in Hr. apply Hr.
  apply existsb_exists. exists r'. split; [exact Hr'|]. now apply Z.eqb_eq.
Qed.

Lemma sorted_strict l :
  StronglySorted by_id l -> NoDup (map Row.id l) -> StronglySorted by_id_strict l.
Proof.
  induction 1 as [|r l Hs IH Hall]; intros Hnd; [constructor|].
  simpl in Hnd. apply NoDup_cons in Hnd as [Hnotin Hnd].
  constructor; [auto|].
  apply Forall_forall. intros r' Hr'.
  rewrite Forall_forall in Hall. specialize (Hall r' Hr').
  unfold by_id in Hall. unfold by_id_strict.
  assert (Row.id r <> Row.id r'); [|lia].
  intros Heq. apply Hnotin. rewrite Heq. now apply list_elem_of_fmap_2.
Qed.

(** X2. On a connected store [get_all_accounts] returns every row of the
    table, active or not, each exactly once, in strictly ascending order of
    [id]; it sends one [SELECT] and leaves the table as it was. *)
Theorem get_all_accounts_lists_all_by_id (st : State) :
  connected st = true ->
  exists l,
    (get_all_accounts st).1 = Return l /\
    l ≡ₚ rows_of st /\
    StronglySorted by_id_strict l /\
    table_of (get_all_accounts st).2 = table_of st /\
    calls_of (get_all_accounts st).2 = calls_of st ++ [(SelectAll, [])].
Proof.
  intros Hc.
  destruct (connected_inv st Hc) as (p & t & Hp & Ho & Ht & Hl).
  assert (Hrs : rows_of st = rows t) by (unfold rows_of, table_of; now rewrite Ht).
  exists (select_all (rows t)).
  rewrite (get_all_accounts_open st p Hp Ho), Hrs.
  unfold execute, table_of, calls_of. simpl.
  rewrite Ht, (legal_current t Hl), check_columns_nil. simpl.
  split; [reflexivity|].
  split; [apply select_all_perm|].
  split; [|split; [now rewrite Ht|reflexivity]].
  apply sorted_strict.
  - unfold select_all. apply StronglySorted_merge_sort; apply _.
  - apply legal_inv in Hl as (Hu & _).
    assert (Hp' : map Row.id (select_all (rows t)) ≡ₚ map Row.id (rows t))
      by (apply fmap_Permutation, select_all_perm).
    rewrite Hp'. now apply unique_ids_NoDup.
Qed.

Lemma get_all_accounts_lists_all_by_id_witness :
  exists l,
    (get_all_accounts (store_with [sample_row 2 None; sample_row 1 None] 3)).1
    = Return l /\ l = [sample_row 1 None; sample_row 2 None].
Proof.
  destruct (get_all_accounts_lists_all_by_id
              (store_with [sample_row 2 None; sample_row 1 None] 3) eq_refl)
    as (l & Hl & _).
  exists l. split; [exact Hl|].
  vm_compute in Hl. now injection Hl as <-.
Defined.

(** ** Connecting, failing to connect, connecting again *)

(** What [connect] does once [create_pool] has succeeded: the outcome and the
    log entry are those of the schema script. *)
Lemma connect_reached st dsn :
  truthy_url (database_url (self st)) = Some dsn ->
  reachable (world st) dsn = true ->
  connect st =
  (match run_schema (relation (database (world st))) with
   | Return _ => Return tt
   | Raise e => Raise e
   end,
   mkState (mkManager (Some (mkPool 1 10 false)) (database_url (self st)))
     (mkWorld (environ (world st)) (reachable (world st)) (clock (world st))
        (execute CreateSchema [] (clock (world st)) (database (world st))).2
        (logged (world st)
         ++ [match run_schema (relation (database (world st))) with
             | Return _ => (INFO, "✅ Database connected successfully")
             | Raise e => (ERROR, "❌ Database connection failed: " +:+ str_exn e)
             end]))).
Proof.
  intros Hurl Hreach. run_method. simpl. rewrite Hurl, Hreach. simpl.
  unfold execute. simpl.
  destruct (run_schema (relation (database (world st)))); reflexivity.
Qed.

Lemma execute_schema db now :
  execute CreateSchema [] now db
  = match run_schema (relation db) with
    | Return t => (Return [], with_table t (record_call CreateSchema [] db))
    | Raise e => (Raise e, record_call CreateSchema [] db)
    end.
Proof. unfold execute. simpl. now destruct (relation db). Qed.

Lemma connect_success st dsn t :
  truthy_url (database_url (self st)) = Some dsn ->
  reachable (world st) dsn = true ->
  run_schema (relation (database (world st))) = Return t ->
  connect st =
  (Return tt,
   mkState (mkManager (Some (mkPool 1 10 false)) (database_url (self st)))
     (mkWorld (environ (world st)) (reachable (world st)) (clock (world st))
        (with_table t (record_call CreateSchema [] (database (world st))))
        (logged (world st) ++ [(INFO, "✅ Database connected successfully")]))).
Proof.
  intros Hurl Hreach Hrun. rewrite (connect_reached st dsn Hurl Hreach).
  now rewrite execute_schema, Hrun.
Qed.

Lemma connect_refused st dsn e :
  truthy_url (database_url (self st)) = Some dsn ->
  reachable (world st) dsn = true ->
  run_schema (relation (database (world st))) = Raise e ->
  connect st =
  (Raise e,
   mkState (mkManager (Some (mkPool 1 10 false)) (database_url (self st)))
     (mkWorld (environ (world st)) (reachable (world st)) (clock (world st))
        (record_call CreateSchema [] (database (world st)))
        (logged (world st)
         ++ [(ERROR, "❌ Database connection failed: " +:+ str_exn e)]))).
Proof.
  intros Hurl Hreach Hrun. rewrite (connect_reached st dsn Hurl Hreach).
  now rewrite execute_schema, Hrun.
Qed.

(** X3. With a connection string and a server that accepts it, [connect]
    assigns a fresh open pool of 1 to 10 connections, whatever pool the
    manager held before, and sends the schema script once; this much holds
    whether or not the script then goes through.  When the database has no
    table, or a table with every column of the schema, the script goes
    through: [connect] returns, a missing table is created empty with its
    sequence at 1, an existing one is left exactly as it was (rows, sequence
    and columns), and the success is logged at level INFO.  A table that
    lacks a column is outside this statement; there the script adds
    [request_count] or fails. *)
Theorem connect_opens_pool_and_keeps_rows (st : State) (dsn : string) :
  truthy_url (database_url (self st)) = Some dsn ->
  reachable (world st) dsn = true ->
  let st' := (connect st).2 in
  let success := (INFO, "✅ Database connected successfully") in
  pool (self st') = Some (mkPool 1 10 false) /\
  database_url (self st') = database_url (self st) /\
  calls_of st' = calls_of st ++ [(CreateSchema, [])] /\
  (table_of st = None ->
   (connect st).1 = Return tt /\
   table_of st' = Some (mkTable [] 1 []) /\
   logged (world st') = logged (world st) ++ [success]) /\
  (forall t, table_of st = Some t -> lacks t = [] ->
   (connect st).1 = Return tt /\
   table_of st' = Some t /\
   rows_of st' = rows_of st /\
   next_id st' = next_id st /\
   logged (world st') = logged (world st) ++ [success]) /\
  (sound st = true -> (connect st).1 = Return tt /\ connected st' = true).
Proof.
  intros Hurl Hreach st' success. subst st' success.
  assert (Hnone : table_of st = None ->
    connect st =
    (Return tt,
     mkState (mkManager (Some (mkPool 1 10 false)) (database_url (self st)))
       (mkWorld (environ (world st)) (reachable (world st)) (clock (world st))
          (with_table (mkTable [] 1 [])
             (record_call CreateSchema [] (database (world st))))
          (logged (world st) ++ [(INFO, "✅ Database connected successfully")])))).
  { intros Ht. apply (connect_success st dsn _ Hurl Hreach).
    unfold table_of in Ht. now rewrite Ht. }
  assert (Hsome : forall t, table_of st = Some t -> lacks t = [] ->
    connect st =
    (Return tt,
     mkState (mkManager (Some (mkPool 1 10 false)) (database_url (self st)))
       (mkWorld (environ (world st)) (reachable (world st)) (clock (world st))
          (with_table t (record_call CreateSchema [] (database (world st))))
          (logged (world st) ++ [(INFO, "✅ Database connected successfully")])))).
  { intros t Ht Hcur. apply (connect_success st dsn _ Hurl Hreach).
    unfold table_of in Ht. rewrite Ht. now apply run_schema_current. }
  split; [|split; [|split; [|split; [|split]]]].
  - now rewrite (connect_reached st dsn Hurl Hreach).
  - now rewrite (connect_reached st dsn Hurl Hreach).
  - rewrite (connect_reached st dsn Hurl Hreach), execute_schema.
    unfold calls_of. simpl.
    now destruct (run_schema (relation (database (world st)))).
  - intros Ht. now rewrite (Hnone Ht).
  - intros t Ht Hcur. rewrite (Hsome t Ht Hcur).
    unfold rows_of, next_id. rewrite Ht. now unfold table_of.
  - intros Hs. unfold sound in Hs.
    destruct (table_of st) as [t|] eqn:Ht.
    + rewrite (Hsome t eq_refl (legal_current t Hs)).
      split; [reflexivity|].
      unfold connected, open_pool, table_of. simpl. exact Hs.
    + rewrite (Hnone eq_refl). split; [reflexivity|]. reflexivity.
Qed.

Lemma connect_opens_pool_and_keeps_rows_witness :
  let st := (disconnect (store_with [sample_row 1 None] 2)).2 in
  (connect st).1 = Return tt /\
  connected (connect st).2 = true /\ rows_of (connect st).2 = [sample_row 1 None].
Proof.
  intros st.
  pose proof (connect_opens_pool_and_keeps_rows st "postgres://db/gemini"
                eq_refl eq_refl) as H.
  cbv zeta in H. destruct H as (_ & _ & _ & _ & Hsome & Hc).
  destruct (Hsome (mkTable [sample_row 1 None] 2 []) eq_refl eq_refl)
    as (Hret & _ & Hrows & _).
  split; [exact Hret|].
  split; [apply Hc; reflexivity|rewrite Hrows; reflexivity].
Defined.

(** X4. With a connection string the server refuses, [connect] raises the
    very exception [create_pool] raised, after logging it at level ERROR;
    manager, database and clock are as before.  A manager that had no pool
    has none afterwards, so a caller that swallows the exception gets the
    silent empty results of disabled mode. *)
Theorem connect_failure_is_logged_and_raised (st : State) (dsn : string) :
  truthy_url (database_url (self st)) = Some dsn ->
  reachable (world st) dsn = false ->
  let e := ConnectionFailure dsn in
  let st' := (connect st).2 in
  (connect st).1 = Raise e /\
  self st' = self st /\
  database (world st') = database (world st) /\
  logged (world st')
  = logged (world st) ++ [(ERROR, "❌ Database connection failed: " +:+ str_exn e)] /\
  (pool (self st) = None ->
   get_all_accounts st' = (Return [], st') /\
   fetch_active_accounts st' = (Return [], st') /\
   forall a b c d g, add_account a b c d g st' = (Return tt, st')).
Proof.
  intros Hurl Hreach e st'.
  assert (Hc : connect st =
    (Raise e,
     mkState (self st)
       (mkWorld (environ (world st)) (reachable (world st)) (clock (world st))
          (database (world st))
          (logged (world st)
           ++ [(ERROR, "❌ Database connection failed: " +:+ str_exn e)])))).
  { run_method. simpl. rewrite Hurl, Hreach. reflexivity. }
  subst st'. rewrite Hc. simpl. repeat split.
  - now apply disabled_get_all_accounts.
  - now apply disabled_fetch_active_accounts.
  - intros. now apply disabled_add_account.
Qed.

Lemma connect_failure_is_logged_and_raised_witness :
  let w := mkWorld {[ "DATABASE_URL" := "postgres://down" ]} (fun _ => false) 0
                   fresh_database [] in
  (connect (init w)).1 = Raise (ConnectionFailure "postgres://down") /\
  (get_all_accounts (connect (init w)).2).1 = Return [].
Proof.
  intros w.
  pose proof (connect_failure_is_logged_and_raised (init w) "postgres://down"
                eq_refl eq_refl) as H.
  cbv zeta in H. destruct H as (H & _ & _ & _ & Hd).
  split; [exact H|]. destruct (Hd eq_refl) as (Hg & _). now rewrite Hg.
Defined.

(** X5. After [disconnect] a further [connect] (the server still accepting
    the connection string) puts the manager back in service: the closed pool
    is replaced by an open one, the rows are the ones the store had, and
    [get_all_accounts] returns what it returned before the disconnect. *)
Theorem connect_after_disconnect_restores_service (st : State) (dsn : string) :
  connected st = true ->
  truthy_url (database_url (self st)) = Some dsn ->
  reachable (world st) dsn = true ->
  let st' := (connect (disconnect st).2).2 in
  (connect (disconnect st).2).1 = Return tt /\
  connected st' = true /\
  rows_of st' = rows_of st /\
  (get_all_accounts st').1 = (get_all_accounts st).1 /\
  (fetch_active_accounts st').1 = (fetch_active_accounts st).1.
Proof.
  intros Hc Hurl Hreach st'.
  destruct (connected_inv st Hc) as (p & t & Hp & Ho & Ht & Hl).
  assert (Hd : disconnect st =
    (Return tt,
     mkState (mkManager (Some (mkPool (min_size p) (max_size p) true))
                        (database_url (self st))) (world st))).
  { run_method. simpl. rewrite Hp. simpl. now rewrite Hp. }
  subst st'. rewrite Hd. simpl.
  rewrite (connect_success
             (mkState (mkManager (Some (mkPool (min_size p) (max_size p) true))
                                 (database_url (self st))) (world st))
             dsn t Hurl Hreach)
    by (simpl; rewrite Ht; apply run_schema_current, legal_current, Hl).
  simpl.
  split; [reflexivity|].
  split.
  { unfold connected, open_pool, table_of. simpl. exact Hl. }
  split.
  { unfold rows_of, table_of. simpl. now rewrite Ht. }
  split.
  - rewrite (get_all_accounts_open st p Hp Ho).
    erewrite (get_all_accounts_open _ (mkPool 1 10 false));
      [|reflexivity|reflexivity].
    unfold execute. simpl. rewrite Ht.
    now destruct (check_columns (lacks t) _).
  - rewrite (fetch_active_accounts_open st p Hp Ho).
    erewrite (fetch_active_accounts_open _ (mkPool 1 10 false));
      [|reflexivity|reflexivity].
    unfold execute. simpl. rewrite Ht.
    now destruct (check_columns (lacks t) _).
Qed.

Lemma connect_after_disconnect_restores_service_witness :
  let st := store_with [sample_row 1 None] 2 in
  (get_all_accounts (disconnect st).2).1 = Raise (InterfaceError "pool is closed") /\
  (get_all_accounts (connect (disconnect st).2).2).1 = Return [sample_row 1 None].
Proof.
  intros st.
  pose proof (connect_after_disconnect_restores_service st "postgres://db/gemini"
                eq_refl eq_refl eq_refl) as H.
  cbv zeta in H. destruct H as (_ & _ & _ & Hg & _).
  split; [reflexivity|]. rewrite Hg. reflexivity.
Defined.

(** ** Connecting to a table an earlier version left behind *)

Lemma lacking_spec (c : column) (lk : list column) :
  existsb (fun c' => bool_decide (c' = c)) lk = true <-> c ∈ lk.
Proof.
  induction lk as [|c' lk IH]; simpl.
  - split; [discriminate|]. intros H. now apply elem_of_nil in H.
  - rewrite orb_true_iff, IH, elem_of_cons, bool_decide_eq_true.
    split; intros [H|H]; auto.
Qed.

Lemma check_columns_lacking lk c cs :
  c ∈ lk -> check_columns lk (c :: cs) = Raise (UndefinedColumnError (key_of c)).
Proof.
  intros H. apply lacking_spec in H. unfold check_columns. now rewrite H.
Qed.

Lemma add_request_count_lacks t c :
  c <> Crequest_count -> c ∈ lacks t -> c ∈ lacks (add_request_count t).
Proof.
  intros Hne Hin. unfold add_request_count.
  destruct (existsb _ (lacks t)); [|exact Hin]. simpl.
  apply list_elem_of_In, filter_In. split; [now apply list_elem_of_In|].
  apply negb_true_iff, bool_decide_eq_false. exact Hne.
Qed.

(** X13. Connecting to a database whose table lacks only the column
    [request_count]: the schema script adds it.  [connect] returns, the
    table then has every column, every row has [request_count] 0 and is
    otherwise as it was, in the same order, and the sequence is not moved;
    the success is logged at level INFO. *)
Theorem connect_adds_request_count (st : State) (dsn : string) (t : Table) :
  truthy_url (database_url (self st)) = Some dsn ->
  reachable (world st) dsn = true ->
  table_of st = Some t ->
  lacks t = [Crequest_count] ->
  let st' := (connect st).2 in
  (connect st).1 = Return tt /\
  (exists t', table_of st' = Some t' /\ lacks t' = []) /\
  Forall2 (fun r r' => read Crequest_count r' = VInt 0 /\
                       forall c, c <> Crequest_count -> read c r' = read c r)
          (rows_of st) (rows_of st') /\
  next_id st' = next_id st /\
  logged (world st')
  = logged (world st) ++ [(INFO, "✅ Database connected successfully")].
Proof.
  intros Hurl Hreach Ht Hlk st'. subst st'.
  assert (Hadd : add_request_count t
                 = mkTable
                     (map (fun r =>
                             Row.mk (Row.id r) (Row.name r) (Row.secure_c_ses r)
                                    (Row.host_c_oses r) (Row.csesidx r)
                                    (Row.config_id r) (Row.is_active r) (Some 0)
                                    (Row.last_used_at r) (Row.created_at r))
                          (rows t))
                     (id_seq t) []).
  { unfold add_request_count. now rewrite Hlk. }
  assert (Hrun : run_schema (relation (database (world st)))
                 = Return (add_request_count t)).
  { unfold table_of in Ht. rewrite Ht. unfold run_schema. now rewrite Hadd. }
  rewrite (connect_success st dsn _ Hurl Hreach Hrun).
  unfold rows_of, next_id. rewrite Ht. unfold table_of. simpl. rewrite Hadd.
  split; [reflexivity|].
  split; [eexists; split; reflexivity|].
  split; [|split; reflexivity].
  simpl. apply Forall2_fmap_r, Forall_Forall2_diag, Forall_forall.
  intros r _. split; [reflexivity|]. intros c Hc. now destruct c.
Qed.

Lemma connect_adds_request_count_witness :
  let st := older_store [Crequest_count] [sample_row 1 None; sample_row 2 None] 3 in
  (connect st).1 = Return tt /\
  rows_of (connect st).2 = [sample_row 1 (Some 0); sample_row 2 (Some 0)] /\
  connected (connect st).2 = true.
Proof.
  intros st.
  pose proof (connect_adds_request_count st "postgres://db/gemini"
                (mkTable [sample_row 1 None; sample_row 2 None] 3 [Crequest_count])
                eq_refl eq_refl eq_refl eq_refl) as H.
  cbv zeta in H. destruct H as (Hret & _).
  split; [exact Hret|]. split; reflexivity.
Defined.

(** X14. Connecting to a database whose table lacks the column [is_active]:
    the index of the schema script cannot be created.  [connect] logs the
    error at level ERROR and raises it; the table is as it was before (the
    script changed nothing), but the pool assigned before the script ran
    stays in place and open, so the manager is not in disabled mode: a
    following [fetch_active_accounts] raises as well instead of returning the
    empty list. *)
Theorem connect_fails_without_is_active (st : State) (dsn : string) (t : Table) :
  truthy_url (database_url (self st)) = Some dsn ->
  reachable (world st) dsn = true ->
  table_of st = Some t ->
  Cis_active ∈ lacks t ->
  let e := UndefinedColumnError "is_active" in
  let st' := (connect st).2 in
  (connect st).1 = Raise e /\
  pool (self st') = Some (mkPool 1 10 false) /\
  table_of st' = Some t /\
  calls_of st' = calls_of st ++ [(CreateSchema, [])] /\
  logged (world st')
  = logged (world st) ++ [(ERROR, "❌ Database connection failed: " +:+ str_exn e)] /\
  (fetch_active_accounts st').1 = Raise e.
Proof.
  intros Hurl Hreach Ht Hin e st'. subst st'.
  assert (Hrun : run_schema (relation (database (world st))) = Raise e).
  { unfold table_of in Ht. rewrite Ht. unfold run_schema.
    rewrite check_columns_lacking; [reflexivity|].
    now apply add_request_count_lacks. }
  rewrite (connect_refused st dsn e Hurl Hreach Hrun).
  unfold table_of, calls_of. simpl. unfold table_of in Ht.
  repeat split; try assumption.
  erewrite (fetch_active_accounts_open _ (mkPool 1 10 false));
    [|reflexivity|reflexivity].
  unfold execute. simpl. rewrite Ht.
  now rewrite check_columns_lacking.
Qed.

Lemma connect_fails_without_is_active_witness :
  let st := older_store [Cis_active; Crequest_count] [sample_row 1 None] 2 in
  (connect st).1 = Raise (UndefinedColumnError "is_active") /\
  pool (self (connect st).2) = Some (mkPool 1 10 false) /\
  table_of (connect st).2 = table_of st.
Proof.
  intros st.
  pose proof (connect_fails_without_is_active st "postgres://db/gemini"
                (mkTable [sample_row 1 None] 2 [Cis_active; Crequest_count])
                eq_refl eq_refl eq_refl) as H.
  cbv zeta in H.
  destruct H as (Hret & Hp & Htab & _); [left|].
  split; [exact Hret|]. split; [exact Hp|exact Htab].
Defined.

(** ** [update_account] on a closed pool *)

(** X6. On a manager whose pool has been closed, [update_account] looks at
    the mapping before it asks for a connection: with a recognised key it
    raises the pool's [InterfaceError], with none (the empty mapping, or
    unknown keys only) it returns as if nothing were wrong.  Either way the
    state is untouched. *)
Theorem update_account_on_closed_pool
  (st : State) (p : Pool) (i : Z) (data : gmap string pyval) :
  pool (self st) = Some p ->
  closed p = true ->
  update_account i data st =
  (match supplied data mutable_keys with
   | [] => Return tt
   | _ :: _ => Raise (InterfaceError "pool is closed")
   end, st).
Proof.
  intros Hp Ho. unfold update_account.
  rewrite (collect_loop data mutable_keys [] [] 1).
  cbv beta iota zeta delta [mbind M_bind get_self]. rewrite Hp.
  change ([] ++ ?l) with l.
  destruct (supplied data mutable_keys) as [|[k v] sup]; [reflexivity|].
  cbn [number]. run_method. now rewrite Ho.
Qed.

Lemma update_account_on_closed_pool_witness :
  let st := (disconnect (store_with [sample_row 1 None] 2)).2 in
  (update_account 1 {[ "colour" := PStr "red" ]} st).1 = Return tt /\
  (update_account 1 {[ "name" := PStr "X" ]} st).1
  = Raise (InterfaceError "pool is closed").
Proof.
  intros st. split.
  - now rewrite (update_account_on_closed_pool st (mkPool 1 10 true) 1
                   {[ "colour" := PStr "red" ]} eq_refl eq_refl).
  - now rewrite (update_account_on_closed_pool st (mkPool 1 10 true) 1
                   {[ "name" := PStr "X" ]} eq_refl eq_refl).
Defined.

(** ** A call that raises *)

Lemma one_call_raise_rows st q args :
  q <> CreateSchema ->
  raised (one_call q args st).1 = true ->
  rows_of (one_call q args st).2 = rows_of st.
Proof.
  intros Hq. unfold one_call, execute, rows_of, table_of. simpl.
  destruct (relation (database (world st))) as [t|] eqn:Ht.
  - destruct q; simpl; try congruence.
    + destruct (check_columns _ _); simpl; [discriminate|]. now rewrite Ht.
    + destruct (check_columns _ _); simpl; [discriminate|]. now rewrite Ht.
    + destruct (check_columns _ _); cbn [andThen]; [|simpl; now rewrite Ht].
      destruct (run_update _ _ _ _ _); simpl; [discriminate|]. now rewrite Ht.
    + destruct (check_columns _ _); simpl; [|now rewrite Ht].
      destruct (run_insert _ _ _ _) as [[rs'|e] seq]; simpl; [discriminate|].
      reflexivity.
    + destruct (check_columns _ _); cbn [andThen]; [|simpl; now rewrite Ht].
      destruct (run_delete _ _); simpl; [discriminate|]. now rewrite Ht.
  - destruct q; simpl; rewrite ?Ht; reflexivity.
Qed.

Lemma fetch_rows st q args :
  q = SelectActive \/ q = SelectAll ->
  rows_of (with_database (execute q args (clock (world st)) (database (world st))).2 st)
  = rows_of st.
Proof.
  unfold execute, rows_of, table_of.
  intros [-> | ->]; simpl;
    destruct (relation (database (world st))) as [t|] eqn:Ht;
    simpl; rewrite ?Ht; try reflexivity;
    destruct (check_columns _ _); simpl; now rewrite Ht.
Qed.

(** X7. A call that raises has changed no row: in every state, whichever of
    the public methods is called, if it raises instead of returning then the
    rows of the table are exactly the rows from before the call. *)
Theorem raising_call_changes_no_row (c : call) (st : State) :
  raises c st = true -> rows_of (perform c st) = rows_of st.
Proof.
  destruct c as [| | |i|i|n s h x g| |i data|i]; simpl.
  - (* connect *)
    run_method. simpl.
    destruct (truthy_url (database_url (self st))) as [dsn|]; [|discriminate].
    destruct (reachable (world st) dsn); simpl; [|reflexivity].
    rewrite execute_schema.
    destruct (run_schema (relation (database (world st)))); simpl;
      [discriminate|reflexivity].
  - (* disconnect *)
    run_method. simpl. destruct (pool (self st)) eqn:Hp; simpl;
      rewrite ?Hp; discriminate.
  - (* fetch_active_accounts *)
    destruct (pool (self st)) as [p|] eqn:Hp; [destruct (closed p) eqn:Ho|].
    + replace (fetch_active_accounts st) with
        (@Raise (list Row.t) (InterfaceError "pool is closed"), st)
        by (symmetry; closed_pool Hp Ho). reflexivity.
    + rewrite (fetch_active_accounts_open st p Hp Ho). simpl. intros _.
      apply fetch_rows. now left.
    + now rewrite disabled_fetch_active_accounts.
  - (* increment_account_usage *)
    destruct (pool (self st)) as [p|] eqn:Hp; [destruct (closed p) eqn:Ho|].
    + replace (increment_account_usage i st) with
        (@Raise unit (InterfaceError "pool is closed"), st)
        by (symmetry; closed_pool Hp Ho). reflexivity.
    + rewrite (increment_account_usage_open st p Hp Ho).
      apply one_call_raise_rows. discriminate.
    + now rewrite disabled_increment_account_usage.
  - (* update_account_usage *)
    destruct (pool (self st)) as [p|] eqn:Hp; [destruct (closed p) eqn:Ho|].
    + replace (update_account_usage i st) with
        (@Raise unit (InterfaceError "pool is closed"), st)
        by (symmetry; closed_pool Hp Ho). reflexivity.
    + rewrite (update_account_usage_open st p Hp Ho).
      apply one_call_raise_rows. discriminate.
    + now rewrite disabled_update_account_usage.
  - (* add_account *)
    destruct (pool (self st)) as [p|] eqn:Hp; [destruct (closed p) eqn:Ho|].
    + replace (add_account n s h x g st) with
        (@Raise unit (InterfaceError "pool is closed"), st)
        by (symmetry; closed_pool Hp Ho). reflexivity.
    + rewrite (add_account_open st p Hp Ho).
      apply one_call_raise_rows. discriminate.
    + now rewrite disabled_add_account.
  - (* get_all_accounts *)
    destruct (pool (self st)) as [p|] eqn:Hp; [destruct (closed p) eqn:Ho|].
    + replace (get_all_accounts st) with
        (@Raise (list Row.t) (InterfaceError "pool is closed"), st)
        by (symmetry; closed_pool Hp Ho). reflexivity.
    + rewrite (get_all_accounts_open st p Hp Ho). simpl. intros _.
      apply fetch_rows. now right.
    + now rewrite disabled_get_all_accounts.
  - (* update_account *)
    destruct (pool (self st)) as [p|] eqn:Hp; [destruct (closed p) eqn:Ho|].
    + now rewrite (update_account_closed st p i data Hp Ho).
    + rewrite (update_account_open st p i data Hp Ho).
      destruct (supplied data mutable_keys) as [|kv sup]; [reflexivity|].
      apply one_call_raise_rows. discriminate.
    + now rewrite disabled_update_account.
  - (* delete_account *)
    destruct (pool (self st)) as [p|] eqn:Hp; [destruct (closed p) eqn:Ho|].
    + replace (delete_account i st) with
        (@Raise unit (InterfaceError "pool is closed"), st)
        by (symmetry; closed_pool Hp Ho). reflexivity.
    + rewrite (delete_account_open st p Hp Ho).
      apply one_call_raise_rows. discriminate.
    + now rewrite disabled_delete_account.
Qed.

Lemma raising_call_changes_no_row_witness :
  let st := store_with [sample_row 1 (Some 5)] 2 in
  let c := AddAccount (PStr "b") PNone (PStr "h") (PStr "x") (PStr "g") in
  raises c st = true /\ rows_of (perform c st) = [sample_row 1 (Some 5)].
Proof.
  intros st c. split; [reflexivity|].
  now rewrite (raising_call_changes_no_row c st eq_refl).
Defined.

(** ** Deactivating an account *)

Lemma deactivating_stored data :
  deactivating data = true ->
  exists v, data !! "is_active" = Some v
            /\ (stored Cis_active v = Some (VBool false)
                \/ stored Cis_active v = Some VNull).
Proof.
  unfold deactivating. destruct (data !! "is_active") as [[|[|]| | |]|];
    try discriminate; intros _; eexists; split; try reflexivity; auto.
Qed.

(** X8. On a connected store, after an [update_account] that returned and
    whose mapping sets [is_active] to false (or to NULL),
    [fetch_active_accounts] lists no row with that [id], while the rows with
    other [id]s that were active are all still listed. *)
Theorem deactivated_account_is_not_fetched
  (st : State) (i : Z) (data : gmap string pyval) :
  connected st = true ->
  deactivating data = true ->
  (update_account i data st).1 = Return tt ->
  let st' := (update_account i data st).2 in
  exists l,
    (fetch_active_accounts st').1 = Return l /\
    Forall (fun r => Row.id r <> i) l /\
    (forall r, r ∈ rows_of st -> Row.id r <> i -> Row.is_active r = Some true ->
               r ∈ l).
Proof.
  intros Hc Hd Hret st'.
  destruct (connected_inv st Hc) as (p & t & Hp & Ho & Ht & Hl).
  assert (Hrs : rows_of st = rows t) by (unfold rows_of, table_of; now rewrite Ht).
  destruct (update_account_table st p t Hp Ho Ht i data) as [Htab Hself].
  fold st' in Htab, Hself.
  assert (Hupd : Forall2 (updated data i) (rows t) (rows_of st')).
  { destruct (update_account_effect st p t Hp Ho Ht i data)
      as [(_ & _ & H) | (e & He & _)]; [exact H|].
    rewrite Hret in He. discriminate. }
  assert (Hpl : exists l, Forall2 placed (supplied data mutable_keys) l).
  { destruct (update_account_effect st p t Hp Ho Ht i data)
      as [(_ & H & _) | (e & He & _)]; [exact H|].
    rewrite Hret in He. discriminate. }
  destruct Hpl as [pl Hpl].
  assert (Hp' : pool (self st') = Some p) by (now rewrite Hself).
  exists (select_active (rows_of st')).
  split.
  { rewrite (fetch_active_accounts_open st' p Hp' Ho).
    unfold execute, rows_of. simpl. fold (table_of st'). rewrite Htab. simpl.
    now rewrite (legal_current t Hl), check_columns_nil. }
  split.
  - apply Forall_forall. intros r' Hr' Hid.
    apply select_active_elem in Hr' as [Hin Hact].
    apply list_elem_of_lookup in Hin as [j Hj].
    destruct (Forall2_lookup_r _ _ _ _ _ Hupd Hj) as (r & _ & Hu).
    pose proof (updated_id _ _ _ _ Hu) as Hsame.
    unfold updated in Hu. rewrite <- Hsame, Hid, Z.eqb_refl in Hu.
    specialize (Hu Cis_active). unfold new_value in Hu. simpl in Hu.
    destruct (deactivating_stored data Hd) as (v & Hv & Hst).
    rewrite Hv in Hu. rewrite Hact in Hu. simpl in Hu.
    destruct Hst as [Hst | Hst]; rewrite Hst in Hu; discriminate.
  - intros r Hr Hne Hact. apply select_active_elem.
    rewrite Hrs in Hr. apply list_elem_of_lookup in Hr as [j Hj].
    destruct (Forall2_lookup_l _ _ _ _ _ Hupd Hj) as (r' & Hj' & Hu).
    unfold updated in Hu. apply Z.eqb_neq in Hne. rewrite Hne in Hu. subst r'.
    split; [|exact Hact]. eapply list_elem_of_lookup_2; eauto.
Qed.

Lemma deactivated_account_is_not_fetched_witness :
  let st := store_with [sample_row 1 None; sample_row 2 None] 3 in
  exists l,
    (fetch_active_accounts (update_account 1 {[ "is_active" := PBool false ]} st).2).1
    = Return l /\ l = [sample_row 2 None].
Proof.
  intros st.
  assert (Hd : deactivating {[ "is_active" := PBool false ]} = true)
    by (vm_compute; reflexivity).
  assert (Hr : (update_account 1 {[ "is_active" := PBool false ]} st).1 = Return tt)
    by (vm_compute; reflexivity).
  destruct (deactivated_account_is_not_fetched st 1 {[ "is_active" := PBool false ]}
              eq_refl Hd Hr) as (l & Hl & _).
  exists l. split; [exact Hl|].
  vm_compute in Hl. now injection Hl as <-.
Defined.

(** ** Rotation *)



(** ** Identifiers are not handed out twice *)

(** X10. An [id] the sequence has already passed and that no row carries (a
    deleted account, or a value consumed by a failed insert) never shows up
    again: from a sound state, no history of calls brings a row with that
    [id] into the table. *)
Theorem absent_id_never_returns (st : State) (j : Z) (cs : list (Z * call)) :
  sound st = true ->
  j < next_id st ->
  Forall (fun r => Row.id r <> j) (rows_of st) ->
  Forall (fun r => Row.id r <> j) (rows_of (perform_all cs st)).
Proof.
  intros Hs Hj Habs.
  destruct (perform_all_advances cs st Hs) as (_ & _ & Hrows).
  apply Forall_forall. intros r' Hr' Hid.
  destruct (Hrows r' Hr') as [(r & Hr & He & _) | Hnew]; [|lia].
  rewrite Forall_forall in Habs. apply (Habs r Hr). congruence.
Qed.

Lemma absent_id_never_returns_witness :
  let st := (delete_account 1 (store_with [sample_row 1 None] 2)).2 in
  let cs := [(1001, AddAccount (PStr "b") (PStr "s") PNone (PStr "x") (PStr "g"));
             (1002, UpdateAccount 2 {[ "id" := PInt 1 ]})] in
  map Row.id (rows_of (perform_all cs st)) = [2] /\
  Forall (fun r => Row.id r <> 1) (rows_of (perform_all cs st)).
Proof.
  intros st cs. split; [reflexivity|].
  apply (absent_id_never_returns st 1 cs); [reflexivity|vm_compute; reflexivity|].
  vm_compute. constructor.
Defined.

(** ** Reading changes nothing *)

Lemma fetch_table st q args :
  q = SelectActive \/ q = SelectAll ->
  table_of (with_database (execute q args (clock (world st)) (database (world st))).2 st)
  = table_of st.
Proof.
  unfold execute, table_of.
  intros [-> | ->]; simpl;
    destruct (relation (database (world st))) as [t|] eqn:Ht;
    simpl; rewrite ?Ht; try reflexivity;
    destruct (check_columns _ _); simpl; now rewrite Ht.
Qed.

Lemma read_only_table c st :
  read_only c = true ->
  table_of (perform c st) = table_of st /\ self (perform c st) = self st
  \/ c = Disconnect.
Proof.
  destruct c; try discriminate; intros _; simpl; [now right| |].
  - left. destruct (pool (self st)) as [p|] eqn:Hp; [destruct (closed p) eqn:Ho|].
    + replace (fetch_active_accounts st).2 with st by (symmetry; closed_pool Hp Ho).
      auto.
    + rewrite (fetch_active_accounts_open st p Hp Ho). simpl.
      split; [apply fetch_table; now left|reflexivity].
    + rewrite disabled_fetch_active_accounts by exact Hp. auto.
  - left. destruct (pool (self st)) as [p|] eqn:Hp; [destruct (closed p) eqn:Ho|].
    + replace (get_all_accounts st).2 with st by (symmetry; closed_pool Hp Ho).
      auto.
    + rewrite (get_all_accounts_open st p Hp Ho). simpl.
      split; [apply fetch_table; now right|reflexivity].
    + rewrite disabled_get_all_accounts by exact Hp. auto.
Qed.

(** X11. Reading writes nothing: over any history made only of
    [fetch_active_accounts], [get_all_accounts] and [disconnect], in any
    state and at any times, the table (its rows and its sequence) stays
    exactly as it was. *)
Theorem reads_leave_the_table_alone (st : State) (cs : list (Z * call)) :
  forallb (fun tc => read_only tc.2) cs = true ->
  table_of (perform_all cs st) = table_of st.
Proof.
  revert st. induction cs as [|[now c] cs IH]; intros st H; simpl in *;
    [reflexivity|].
  apply andb_true_iff in H as [Hc H]. rewrite IH by exact H.
  destruct (read_only_table c (at_time now st) Hc) as [[Ht _] | ->].
  - exact Ht.
  - simpl. apply (disconnect_table (at_time now st)).
Qed.

Lemma reads_leave_the_table_alone_witness :
  let st := store_with [sample_row 1 None] 2 in
  rows_of (perform_all [(1, GetAllAccounts); (2, FetchActiveAccounts);
                        (3, Disconnect); (4, GetAllAccounts)] st)
  = [sample_row 1 None].
Proof.
  intros st. unfold rows_of.
  now rewrite (reads_leave_the_table_alone st
                 [(1, GetAllAccounts); (2, FetchActiveAccounts);
                  (3, Disconnect); (4, GetAllAccounts)] eq_refl).
Defined.

(** ** Counting many requests *)

Lemma used_more i n t1 t2 r :
  on_id i (used 1 t2) (on_id i (used n t1) r) = on_id i (used (n + 1) t2) r.
Proof.
  unfold on_id. destruct (Row.id r =? i) eqn:Hi; [|now rewrite Hi].
  unfold used at 2. simpl. rewrite Hi. unfold used. simpl. f_equal.
  destruct (Row.request_count r); simpl; f_equal. lia.
Qed.

Lemma increments_snoc i ts t st :
  perform_all (increments i (ts ++ [t])) st
  = (increment_account_usage i (at_time t (perform_all (increments i ts) st))).2.
Proof.
  revert st. induction ts as [|t0 ts IH]; intros st; simpl; [reflexivity|].
  apply IH.
Qed.

Lemma can_count_less n m r : 0 <= n <= m -> can_count m r = true -> can_count n r = true.
Proof.
  unfold can_count. destruct (Row.request_count r); [|discriminate].
  intros Hn Hm. apply Z.leb_le in Hm. apply Z.leb_le. lia.
Qed.

Lemma increments_count st i ts t :
  connected st = true ->
  in_int4 i = true ->
  can_count_at (Z.of_nat (S (length ts))) i st = true ->
  connected (perform_all (increments i (ts ++ [t])) st) = true /\
  rows_of (perform_all (increments i (ts ++ [t])) st)
  = map (on_id i (used (Z.of_nat (S (length ts))) t)) (rows_of st).
Proof.
  intros Hc Hi. revert t. induction ts as [|t0 ts IH] using rev_ind; intros t Hq.
  - simpl.
    pose proof (can_count_at_spec _ _ _ Hq) as Hq'.
    destruct (increment_once (at_time t st) i Hc Hi Hq') as (_ & Hrows & Hc').
    split; [exact Hc'|exact Hrows].
  - rewrite increments_snoc.
    pose proof (can_count_at_spec _ _ _ Hq) as Hq'.
    assert (Hq0 : can_count_at (Z.of_nat (S (length ts))) i st = true).
    { unfold can_count_at. apply forallb_forall. intros r Hr.
      destruct (Z.eqb_spec (Row.id r) i) as [Heq|]; [|reflexivity]. simpl.
      apply (can_count_less _ (Z.of_nat (S (length (ts ++ [t0]))))).
      - rewrite length_app. simpl. lia.
      - apply Hq'; [now apply list_elem_of_In|exact Heq]. }
    destruct (IH t0 Hq0) as (Hc1 & Hrows1).
    set (st1 := perform_all (increments i (ts ++ [t0])) st) in *.
    assert (Hq1 : forall r, r ∈ rows_of (at_time t st1) -> Row.id r = i ->
                            can_count 1 r = true).
    { change (rows_of (at_time t st1)) with (rows_of st1). rewrite Hrows1.
      intros r Hr Hid. apply list_elem_of_fmap in Hr as (r0 & -> & Hr0).
      rewrite on_id_id in Hid by reflexivity.
      specialize (Hq' r0 Hr0 Hid). unfold on_id. rewrite Hid, Z.eqb_refl.
      unfold can_count in *. simpl.
      destruct (Row.request_count r0); simpl; [|discriminate].
      apply Z.leb_le in Hq'. apply Z.leb_le.
      rewrite length_app in Hq'. simpl in Hq'. lia. }
    destruct (increment_once (at_time t st1) i Hc1 Hi Hq1) as (_ & Hrows & Hc').
    split; [exact Hc'|]. rewrite Hrows.
    change (rows_of (at_time t st1)) with (rows_of st1).
    change (clock (world (at_time t st1))) with t.
    rewrite Hrows1, map_map. apply map_ext. intros r.
    rewrite used_more. do 2 f_equal. rewrite length_app. simpl. lia.
Qed.

(** X12. The counter counts the calls: on a connected store, [n] calls of
    [increment_account_usage] for the same [id], made one after the other at
    any times, leave the matching row with [request_count] increased by
    exactly [n] and [last_used_at] set to the time of the last call (as long
    as the counter stays within [BIGINT]); every other row is unchanged. *)
Theorem request_count_counts_the_calls (st : State) (i : Z) (ts : list Z) (t : Z) :
  connected st = true ->
  in_int4 i = true ->
  can_count_at (Z.of_nat (S (length ts))) i st = true ->
  rows_of (perform_all (increments i (ts ++ [t])) st)
  = map (on_id i (used (Z.of_nat (S (length ts))) t)) (rows_of st).
Proof.
  intros Hc Hi Hq. now apply increments_count.
Qed.

Lemma request_count_counts_the_calls_witness :
  let st := store_with [sample_row 1 (Some 5); sample_row 2 (Some 7)] 3 in
  map Row.request_count (rows_of (perform_all (increments 2 [10; 20; 30]) st))
  = [Some 5; Some 10].
Proof.
  intros st. change [10; 20; 30] with ([10; 20] ++ [30]).
  rewrite (request_count_counts_the_calls st 2 [10; 20] 30 eq_refl eq_refl eq_refl).
  reflexivity.
Defined.
